(** * captcha-svg-generator: a shallow embedding of the generator and its
      collaborators, with the properties of its specification.

    Sources embedded here:
    - [src/lib/random.js]      ([randomInt])
    - [src/lib/colors.js]      ([randomColor])
    - [src/lib/presets.js]     ([buildCharPreset])
    - [src/CaptchaGenerator.js] (constructor, [generateKey], [generate],
      [storeCaptcha], [verifyCaptcha], [generateWavyNoise])

    Modelling conventions.
    - JavaScript numbers are rationals extended with the two infinities and
      NaN ([num]); rounding of doubles and the sign of zero are left out.
      The arithmetic of the model is exact, so a property of a computed
      coordinate is stated only where rounding cannot change it: as a
      bound that a monotone rounding keeps, or under hypotheses that make
      every intermediate value a whole number that a double holds exactly.
      Every zero divisor met in [generate] is a sum started from the literal
      [0], which is a positive zero, so a division by it follows the rule
      for [+0].
    - [Math.random], [Date.now] and [opentype.load] are read from an explicit
      [world]; code that calls them lives in the monad [M], which threads the
      world and carries thrown errors.
    - Template literals that build SVG markup are kept as the records of the
      values they interpolate. *)

From Stdlib Require Import ZArith QArith Qround List String Ascii Lia Bool.
From Stdlib Require Import DecimalString.
Import ListNotations.

Local Open Scope Z_scope.

(* ------------------------------------------------------------------ *)
(** ** JavaScript numbers *)

Module Num.

Inductive num : Type :=
| Fin (q : Q)
| PInf
| NInf
| NaN.

Definition ofZ (z : Z) : num := Fin (inject_Z z).

Definition neg (a : num) : num :=
  match a with
  | Fin q => Fin (- q)
  | PInf => NInf
  | NInf => PInf
  | NaN => NaN
  end.

(** [a + b] *)
Definition add (a b : num) : num :=
  match a, b with
  | NaN, _ | _, NaN => NaN
  | Fin x, Fin y => Fin (x + y)
  | PInf, NInf | NInf, PInf => NaN
  | PInf, _ | _, PInf => PInf
  | NInf, _ | _, NInf => NInf
  end.

(** [a - b] *)
Definition sub (a b : num) : num := add a (neg b).

(** The sign of an infinity multiplied or divided by the finite [q]; an
    infinity times zero is NaN. *)
Definition scaleInf (positive : bool) (q : Q) : num :=
  match q ?= 0 with
  | Eq => NaN
  | Gt => if positive then PInf else NInf
  | Lt => if positive then NInf else PInf
  end%Q.

(** [a * b] *)
Definition mul (a b : num) : num :=
  match a, b with
  | NaN, _ | _, NaN => NaN
  | Fin x, Fin y => Fin (x * y)
  | PInf, Fin y | Fin y, PInf => scaleInf true y
  | NInf, Fin y | Fin y, NInf => scaleInf false y
  | PInf, PInf | NInf, NInf => PInf
  | PInf, NInf | NInf, PInf => NInf
  end.

(** [a / b]; a finite number over zero is an infinity of its sign, and
    [0 / 0] is NaN. *)
Definition div (a b : num) : num :=
  match a, b with
  | NaN, _ | _, NaN => NaN
  | Fin x, Fin y =>
      match y ?= 0 with
      | Eq => match x ?= 0 with
              | Eq => NaN
              | Gt => PInf
              | Lt => NInf
              end
      | _ => Fin (x / y)
      end%Q
  | Fin _, (PInf | NInf) => Fin 0
  | PInf, Fin y => match (y ?= 0)%Q with Lt => NInf | _ => PInf end
  | NInf, Fin y => match (y ?= 0)%Q with Lt => PInf | _ => NInf end
  | (PInf | NInf), (PInf | NInf) => NaN
  end.

(** [Math.min(a, b)]: NaN as soon as one argument is NaN. *)
Definition min (a b : num) : num :=
  match a, b with
  | NaN, _ | _, NaN => NaN
  | NInf, _ | _, NInf => NInf
  | PInf, c | c, PInf => c
  | Fin x, Fin y => if Qle_bool x y then Fin x else Fin y
  end.

(** [a > b]: false as soon as one side is NaN. *)
Definition gt (a b : num) : bool :=
  match a, b with
  | NaN, _ | _, NaN => false
  | PInf, PInf => false
  | PInf, _ => true
  | _, PInf => false
  | NInf, _ => false
  | Fin _, NInf => true
  | Fin x, Fin y => negb (Qle_bool x y)
  end.

(** [a <= b]: false as soon as one side is NaN. *)
Definition le (a b : num) : bool :=
  match a, b with
  | NaN, _ | _, NaN => false
  | _, PInf => true
  | PInf, _ => false
  | NInf, _ => true
  | Fin _, NInf => false
  | Fin x, Fin y => Qle_bool x y
  end.

(** Equality of numbers up to the representation of the rational; NaN is
    related to itself here, so this is the equality of the model and not
    JavaScript's [===]. *)
Definition eqv (a b : num) : Prop :=
  match a, b with
  | Fin x, Fin y => (x == y)%Q
  | PInf, PInf | NInf, NInf | NaN, NaN => True
  | _, _ => False
  end.

Definition isNaN (a : num) : bool :=
  match a with NaN => true | _ => false end.

End Num.

Import Num.

Declare Scope num_scope.
Delimit Scope num_scope with num.
Infix "+" := Num.add : num_scope.
Infix "-" := Num.sub : num_scope.
Infix "*" := Num.mul : num_scope.
Infix "/" := Num.div : num_scope.
Infix "==" := Num.eqv (at level 70, no associativity) : num_scope.
Coercion Fin : Q >-> num.

Local Open Scope string_scope.

(* ------------------------------------------------------------------ *)
(** ** JavaScript values, errors and the effect monad *)

(** The values that cross the storage interface: what a fetch callback can
    resolve to, and what [verifyCaptcha] can hand back. *)
Inductive value : Type :=
| VUndefined
| VNull
| VBool (b : bool)
| VNumber (n : num)
| VString (s : string).

(** [ToBoolean]. *)
Definition truthy (v : value) : bool :=
  match v with
  | VUndefined | VNull => false
  | VBool b => b
  | VNumber (Fin q) => negb (Qeq_bool q 0)
  | VNumber NaN => false
  | VNumber _ => true
  | VString s => negb (s =? "")
  end.

(** [a === b]. *)
Definition strictEq (a b : value) : bool :=
  match a, b with
  | VUndefined, VUndefined | VNull, VNull => true
  | VBool x, VBool y => Bool.eqb x y
  | VNumber (Fin x), VNumber (Fin y) => Qeq_bool x y
  | VNumber PInf, VNumber PInf | VNumber NInf, VNumber NInf => true
  | VString x, VString y => x =? y
  | _, _ => false
  end.

(** [a && b]: the left operand itself when it is falsy. *)
Definition jsAnd (a b : value) : value := if truthy a then b else a.

(** [a || b]: the left operand itself when it is truthy. *)
Definition jsOr (a b : value) : value := if truthy a then a else b.

(** A caller-supplied argument that is expected to be a function: either a
    function of type [F], or some other value ([typeof] differs from
    ["function"]). *)
Inductive callable (F : Type) : Type :=
| NotAFunction (v : value)
| Function (f : F).
Arguments NotAFunction {F} v.
Arguments Function {F} f.

Inductive exn : Type :=
| JsError (message : string)       (* [throw new Error(message)] *)
| JsTypeError (message : string)   (* property read on [undefined] *)
| LoadFailure (file : string)      (* [opentype.load(file)] rejected *)
| Raised (reason : value).         (* a collaborator threw or rejected *)

(** The outcome of awaiting a collaborator's promise. *)
Inductive settled (A : Type) : Type :=
| Fulfilled (a : A)
| Rejected (reason : value).
Arguments Fulfilled {A} a.
Arguments Rejected {A} reason.

(** A glyph of a loaded font: its advance width in font units; its outline
    is identified by the font and the character it was asked for. *)
Record glyph : Type := {
  glyphFont : string;
  glyphChar : ascii;
  advanceWidth : Q
}.

Record font : Type := {
  unitsPerEm : Q;
  charToGlyph : ascii -> glyph
}.

(** What the program reads from outside: the successive results of
    [Math.random()] with the number already drawn, the value of
    [Date.now()], and what [opentype.load] finds for a file. *)
Record world : Type := {
  random : nat -> Q;
  drawn : nat;
  clock : Z;
  fontStore : string -> option font
}.

Inductive result (A : Type) : Type :=
| Ok (a : A) (w : world)
| Throw (e : exn).
Arguments Ok {A} a w.
Arguments Throw {A} e.

Definition M (A : Type) : Type := world -> result A.

Definition ret {A} (a : A) : M A := fun w => Ok a w.

Definition bind {A B} (m : M A) (k : A -> M B) : M B :=
  fun w => match m w with
           | Ok a w' => k a w'
           | Throw e => Throw e
           end.

Definition throw {A} (e : exn) : M A := fun _ => Throw e.

Declare Scope monad_scope.
Delimit Scope monad_scope with monad.
Notation "x <- m ;; k" := (bind m (fun x => k))
  (at level 61, m at next level, right associativity) : monad_scope.
Local Open Scope monad_scope.

(** [xs.map(f)] for a callback with effects, left to right. *)
Fixpoint mapM {A B} (f : A -> M B) (xs : list A) : M (list B) :=
  match xs with
  | [] => ret []
  | x :: xs' => y <- f x ;; ys <- mapM f xs' ;; ret (y :: ys)
  end.

(** [Array.from({ length: n }, f)]. *)
Fixpoint replicateM {A} (n : nat) (f : M A) : M (list A) :=
  match n with
  | O => ret []
  | S n' => y <- f ;; ys <- replicateM n' f ;; ret (y :: ys)
  end.

(** A loop that runs [body] on every element in turn and threads an
    accumulator. *)
Fixpoint foldM {A S} (body : S -> A -> M S) (s : S) (xs : list A) : M S :=
  match xs with
  | [] => ret s
  | x :: xs' => s' <- body s x ;; foldM body s' xs'
  end.

(** [Math.random()]. *)
Definition Math_random : M Q :=
  fun w => Ok (random w (drawn w))
              {| random := random w; drawn := S (drawn w);
                 clock := clock w; fontStore := fontStore w |}.

(** [Date.now()]. *)
Definition Date_now : M Z := fun w => Ok (clock w) w.

(** [opentype.load(file)], awaited. *)
Definition opentype_load (file : string) : M font :=
  fun w => match fontStore w file with
           | Some f => Ok f w
           | None => Throw (LoadFailure file)
           end.

(** [xs[i]] for a computed index: [undefined] ([None]) outside the array. *)
Definition index {A} (xs : list A) (i : Z) : option A :=
  if (i <? 0)%Z then None else nth_error xs (Z.to_nat i).

(* ------------------------------------------------------------------ *)
(** ** src/lib/random.js and src/lib/colors.js *)

(** [Math.floor(Math.random() * (max - min) + min)]. The source rounds
    the difference, the product and the sum to doubles; the model computes
    them exactly. With a lower bound other than [0] the rounded sum can
    reach [max] where the exact one stays below it (in doubles
    [randomInt(2, 4)] is [4] for [Math.random() = 1 - 2^-53]), so a strict
    upper bound is claimed below only for calls whose lower bound is [0],
    and for the call [randomInt(-25, 25)], whose rounded sum stays below
    [25]. *)
Definition randomInt (min max : Q) : M Z :=
  u <- Math_random ;;
  ret (Qfloor (u * (max - min) + min)).

(** The decimal text of an integer, as a template literal prints it. *)
Definition decimal (z : Z) : string := NilZero.string_of_int (Z.to_int z).

Definition randomColor : M string :=
  r <- randomInt 0 255 ;;
  g <- randomInt 0 255 ;;
  b <- randomInt 0 255 ;;
  ret ("rgb(" ++ decimal r ++ "," ++ decimal g ++ "," ++ decimal b ++ ")").

(* ------------------------------------------------------------------ *)
(** ** src/lib/presets.js *)

Definition upper : string := "ABCDEFGHIJKLMNOPQRSTUVWXYZ".
Definition lower : string := "abcdefghijklmnopqrstuvwxyz".
Definition numbers : string := "0123456789".

(** The [switch] compares with [===], so only a string can select a case;
    every other value takes the [default] branch. *)
Definition buildCharPreset (type : value) : string :=
  match type with
  | VString t =>
      if t =? "upper" then upper
      else if t =? "lower" then lower
      else if t =? "numbers" then numbers
      else if t =? "letters" then upper ++ lower
      else if t =? "upper-alphanum" then upper ++ numbers
      else if t =? "lower-alphanum" then lower ++ numbers
      else upper ++ lower ++ numbers
  | _ => upper ++ lower ++ numbers
  end.

(* ------------------------------------------------------------------ *)
(** ** src/CaptchaGenerator.js *)

Module CaptchaGenerator.

(** [CaptchaOptions] with every property present: the shape of
    [this.defaults] and of [this.options]. [size] and [noise] are counts:
    [Array.from({ length: size }, ...)] and the loop [i < count] run that
    many times. The other numbers are finite. *)
Record CaptchaOptions : Type := {
  size : nat;
  ignoreChars : string;
  noise : nat;
  background : string;
  width : Q;
  height : Q;
  fontSize : Q;
  presetType : value;
  fontFiles : list string;
  fontColour : string;
  noiseColour : string;
  noiseWidth : Q;
  messy : bool
}.

(** The [options] argument of the constructor: each property may be
    absent. *)
Record overrides : Type := {
  size' : option nat;
  ignoreChars' : option string;
  noise' : option nat;
  background' : option string;
  width' : option Q;
  height' : option Q;
  fontSize' : option Q;
  presetType' : option value;
  fontFiles' : option (list string);
  fontColour' : option string;
  noiseColour' : option string;
  noiseWidth' : option Q;
  messy' : option bool
}.

(** [{}] *)
Definition noOverrides : overrides :=
  {| size' := None; ignoreChars' := None; noise' := None;
     background' := None; width' := None; height' := None;
     fontSize' := None; presetType' := None; fontFiles' := None;
     fontColour' := None; noiseColour' := None; noiseWidth' := None;
     messy' := None |}.

Definition orDefault {A} (o : option A) (d : A) : A :=
  match o with Some a => a | None => d end.

(** [{ ...defaults, ...options }] *)
Definition spread (defaults : CaptchaOptions) (o : overrides) : CaptchaOptions :=
  {| size := orDefault (size' o) (size defaults);
     ignoreChars := orDefault (ignoreChars' o) (ignoreChars defaults);
     noise := orDefault (noise' o) (noise defaults);
     background := orDefault (background' o) (background defaults);
     width := orDefault (width' o) (width defaults);
     height := orDefault (height' o) (height defaults);
     fontSize := orDefault (fontSize' o) (fontSize defaults);
     presetType := orDefault (presetType' o) (presetType defaults);
     fontFiles := orDefault (fontFiles' o) (fontFiles defaults);
     fontColour := orDefault (fontColour' o) (fontColour defaults);
     noiseColour := orDefault (noiseColour' o) (noiseColour defaults);
     noiseWidth := orDefault (noiseWidth' o) (noiseWidth defaults);
     messy := orDefault (messy' o) (messy defaults) |}.

(** The object behind [this]. [captchaKey] and [captchaText] are [null]
    ([None]) until [generate] assigns them. *)
Record instance : Type := {
  defaults : CaptchaOptions;
  options : CaptchaOptions;
  chars : list ascii;
  captchaKey : option string;
  captchaText : option string
}.

(** [join(this.__dirname, "../fonts/LiberationSerif-wlR9.ttf")], relative
    to the package. *)
Definition bundledFont : string := "fonts/LiberationSerif-wlR9.ttf".

(** [s.includes(ch)] for a one-character [ch]. *)
Definition includes (s : string) (ch : ascii) : bool :=
  existsb (Ascii.eqb ch) (list_ascii_of_string s).

(** The final character pool of the constructor. *)
Definition pool (o : CaptchaOptions) : list ascii :=
  filter (fun ch => negb (includes (ignoreChars o) ch))
         (list_ascii_of_string (buildCharPreset (presetType o))).

(** [this.defaults], once the two random colours are drawn. *)
Definition defaultOptions (fontsFamily : list string)
    (fontColour noiseColour : string) : CaptchaOptions :=
  {| size := 6;
     ignoreChars := "";
     noise := 2;
     background := "#ffffff";
     width := 150;
     height := 50;
     fontSize := 36;
     presetType := VString "all";
     fontFiles := if (0 <? List.length fontsFamily)%nat
                  then fontsFamily else [bundledFont];
     fontColour := fontColour;
     noiseColour := noiseColour;
     noiseWidth := 2;
     messy := true |}.

(** [new CaptchaGenerator(options, fontsFamily)] *)
Definition new (o : overrides) (fontsFamily : list string)
  : M instance :=
  fc <- randomColor ;;
  nc <- randomColor ;;
  let defaults := defaultOptions fontsFamily fc nc in
  let options := spread defaults o in
  ret {| defaults := defaults;
         options := options;
         chars := pool options;
         captchaKey := None;
         captchaText := None |}.

(** *** generateKey *)

Definition keyChars : string :=
  "ABCDEFGHIJKLMNOPQRSTUVWXYZabcdefghijklmnopqrstuvwxyz0123456789".

Definition digits36 : list ascii :=
  list_ascii_of_string "0123456789abcdefghijklmnopqrstuvwxyz".

Fixpoint toString36_digits (fuel : nat) (n : Z) (acc : string) : string :=
  let digit := nth (Z.to_nat (n mod 36)) digits36 "0"%char in
  match fuel with
  | O => String digit acc
  | S fuel' =>
      if (n <? 36)%Z then String digit acc
      else toString36_digits fuel' (n / 36) (String digit acc)
  end.

(** [n.toString(36)] for an integer [n]. *)
Definition toString36 (n : Z) : string :=
  let digits := toString36_digits (Z.to_nat (Z.log2 (Z.abs n)))
                                  (Z.abs n) "" in
  if (n <? 0)%Z then "-" ++ digits else digits.

(** What [key += c] appends: the character, or the text of [undefined]. *)
Definition appended (c : option ascii) : string :=
  match c with
  | Some ch => String ch ""
  | None => "undefined"
  end.

Fixpoint generateKey_loop (n : nat) (key : string) : M string :=
  match n with
  | O => ret key
  | S n' =>
      i <- randomInt 0 (inject_Z (Z.of_nat (String.length keyChars))) ;;
      generateKey_loop n'
        (key ++ appended (index (list_ascii_of_string keyChars) i))
  end.

Definition generateKey (length : nat) : M string :=
  now <- Date_now ;;
  key <- generateKey_loop length "" ;;
  ret (key ++ toString36 now).

(** *** Markup *)

(** [glyph.getPath(x, y, fontSize).toPathData(2)], kept as the call. *)
Record pathData : Type := {
  ofGlyph : glyph;
  atX : num;
  atY : num;
  atSize : num
}.

(** [rotate(angle pivotX pivotY)] *)
Record rotation : Type := {
  angle : Z;
  pivotX : num;
  pivotY : num
}.

(** [<path d=... fill=... transform=.../>] of a character. *)
Record textPath : Type := {
  d : pathData;
  fill : string;
  transform : option rotation
}.

(** The commands of a noise path: [M0 y], then [Q midX midY, endX endY]. *)
Inductive command : Type :=
| MoveTo (x : num) (y : Z)
| QuadTo (midX : num) (midY : Z) (endX : num) (endY : Z).

(** [<path d=... stroke=... fill=... stroke-width=.../>] of a noise
    line. *)
Record noisePath : Type := {
  noiseD : list command;
  stroke : string;
  noiseFill : string;
  strokeWidth : Q
}.

(** The [<svg>] document: its size, the fill of the background rectangle,
    then the noise paths and the character paths, in that order. *)
Record svg : Type := {
  svgWidth : Q;
  svgHeight : Q;
  rectFill : string;
  noiseSVG : list noisePath;
  textSVG : list textPath
}.

(** *** generateWavyNoise *)

(** The inner [for] loop, with [remaining] iterations to go. The source
    rounds the quotient and each sum to doubles; here they are exact. *)
Fixpoint noiseSegments (o : CaptchaOptions) (segments : Z) (remaining : nat)
    (d : list command) (prevX : num) : M (list command) :=
  match remaining with
  | O => ret d
  | S remaining' =>
      let midX := (prevX + Fin (width o) / ofZ segments)%num in
      midY <- randomInt 0 (height o) ;;
      let endX := (midX + Fin (width o) / ofZ segments)%num in
      endY <- randomInt 0 (height o) ;;
      noiseSegments o segments remaining'
        (d ++ [QuadTo midX midY endX endY])%list endX
  end.

(** One iteration of the outer loop. *)
Definition noiseLine (this : instance) : M noisePath :=
  startY <- randomInt 0 (height (options this)) ;;
  segments <- randomInt 2 4 ;;
  d <- noiseSegments (options this) segments (Z.to_nat segments)
         [MoveTo (Fin 0) startY] (Fin 0) ;;
  ret {| noiseD := d;
         stroke := noiseColour (options this);
         noiseFill := "none";
         strokeWidth := noiseWidth (defaults this) |}.

Definition generateWavyNoise (this : instance) (count : nat)
  : M (list noisePath) :=
  replicateM count (noiseLine this).

(** *** The two layouts of generate *)

(** Reading a property of [f]: a [TypeError] when [f] is [undefined]. *)
Definition deref {A} (f : option A) : M A :=
  match f with
  | Some a => ret a
  | None => throw (JsTypeError "Cannot read properties of undefined")
  end.

(** The locals of a layout branch that the properties speak about, next
    to the markup it appends to [textSVG]. *)
Record layout : Type := {
  totalWidth : num;
  scale : num;
  paths : list textPath
}.

Definition gap : Q := 3.

(** [Math.min(1, (this.options.width - 10) / totalWidth)] *)
Definition straightScale (o : CaptchaOptions) (totalWidth : num) : num :=
  Num.min (Fin 1) ((Fin (width o) - Fin 10) / totalWidth)%num.

(** [Math.min(1, this.options.width / totalWidth)] *)
Definition messyScale (o : CaptchaOptions) (totalWidth : num) : num :=
  Num.min (Fin 1) (Fin (width o) / totalWidth)%num.

(** [advanceWidth * (fontSize / font.unitsPerEm)] *)
Definition scaledAdvance (o : CaptchaOptions) (f : font) (g : glyph) : num :=
  (Fin (advanceWidth g) * (Fin (fontSize o) / Fin (unitsPerEm f)))%num.

(** [widths.reduce((sum, w) => sum + w, 0)] *)
Definition sumWidths (widths : list num) : num :=
  fold_left Num.add widths (Fin 0).

(** The branch [if (!this.options.messy)]. *)
Definition straight (o : CaptchaOptions) (loadedFonts : list font)
    (text : string) (y : Q) : M layout :=
  let font := nth_error loadedFonts 0 in
  glyphs <- mapM (fun ch => f <- deref font ;; ret (charToGlyph f ch))
                 (list_ascii_of_string text) ;;
  naturalWidth <-
    foldM (fun sum g => f <- deref font ;;
                        ret (sum + scaledAdvance o f g)%num)
          (Fin 0) glyphs ;;
  let totalWidth :=
    (naturalWidth
     + Fin gap * ofZ (Z.of_nat (String.length text) - 1))%num in
  let scale := straightScale o totalWidth in
  let x0 := ((Fin (width o) - totalWidth * scale) / Fin 2)%num in
  acc <-
    foldM (fun (acc : list textPath * num) glyph =>
             let '(textSVG, x) := acc in
             f <- deref font ;;
             let advanceWidth := (scaledAdvance o f glyph * scale)%num in
             let path := {| ofGlyph := glyph; atX := x; atY := Fin y;
                            atSize := (Fin (fontSize o) * scale)%num |} in
             ret ((textSVG ++ [{| d := path; fill := fontColour o;
                                  transform := None |}])%list,
                  (x + (advanceWidth + Fin gap * scale))%num))
          ([], x0) glyphs ;;
  ret {| totalWidth := totalWidth; scale := scale; paths := fst acc |}.

(** [loadedFonts[randomInt(0, loadedFonts.length)]] *)
Definition pickFont (loadedFonts : list font) : M (option font) :=
  i <- randomInt 0 (inject_Z (Z.of_nat (List.length loadedFonts))) ;;
  ret (index loadedFonts i).

(** The [else] branch: a font is drawn for every character when the widths
    are measured, and drawn again when the character is emitted. *)
Definition messyLayout (o : CaptchaOptions) (loadedFonts : list font)
    (text : string) (y : Q) : M layout :=
  let fontSizes := fontSize o in
  let chars := list_ascii_of_string text in
  glyphWidths <-
    mapM (fun ch => font <- pickFont loadedFonts ;;
                    f <- deref font ;;
                    ret (scaledAdvance o f (charToGlyph f ch)))
         chars ;;
  let totalWidth := sumWidths glyphWidths in
  let scale := messyScale o totalWidth in
  let xStart := ((Fin (width o) - totalWidth * scale) / Fin 2)%num in
  acc <-
    foldM (fun (acc : list textPath * num) char =>
             let '(textSVG, x) := acc in
             font <- pickFont loadedFonts ;;
             f <- deref font ;;
             let glyph := charToGlyph f char in
             let charWidth :=
               (Fin (advanceWidth glyph)
                * (Fin fontSizes / Fin (unitsPerEm f)) * scale)%num in
             let charX := (x + charWidth / Fin 2)%num in
             rotate <- randomInt (-25) 25 ;;
             let path := {| ofGlyph := glyph; atX := x; atY := Fin y;
                            atSize := (Fin fontSizes * scale)%num |} in
             ret ((textSVG
                   ++ [{| d := path; fill := fontColour o;
                          transform := Some {| angle := rotate;
                                               pivotX := charX;
                                               pivotY := Fin y |} |}])%list,
                  (x + charWidth)%num))
          ([], xStart) chars ;;
  ret {| totalWidth := totalWidth; scale := scale; paths := fst acc |}.

(** *** generate *)

(** What [generate] resolves to: [{ key, text, data }]. *)
Record challenge : Type := {
  key : string;
  text : string;
  data : svg
}.

(** [picks.join("")]: an [undefined] element contributes nothing. *)
Definition join (picks : list (option ascii)) : string :=
  string_of_list_ascii
    (flat_map (fun c => match c with Some ch => [ch] | None => [] end)
              picks).

(** [this.chars[randomInt(0, this.chars.length)]] *)
Definition pickChar (this : instance) : M (option ascii) :=
  i <- randomInt 0 (inject_Z (Z.of_nat (List.length (chars this)))) ;;
  ret (index (chars this) i).

(** [generate()]: the challenge it resolves to, and [this] after the two
    assignments at its end.
    - [Promise.all] starts every load at once and fails with the load that
      fails first in time; [mapM] loads in list order and fails with the
      first failing file of the list. The two agree when at most one file
      fails, and on whether a failure occurs.
    - The record [svg] holds the values that the template interpolates; the
      final [.replace(/\s+/g, ' ').trim()], which collapses runs of white
      space in the assembled text (also inside an interpolated colour), has
      no counterpart on the record. *)
Definition generate (this : instance) : M (challenge * instance) :=
  let o := options this in
  picks <- replicateM (size o) (pickChar this) ;;
  let text := join picks in
  loadedFonts <- mapM opentype_load (fontFiles o) ;;
  let y := (height o / 2 + fontSize o / 3)%Q in
  lay <- (if negb (messy o)
          then straight o loadedFonts text y
          else messyLayout o loadedFonts text y) ;;
  noiseSVG <- generateWavyNoise this (noise o) ;;
  let svg := {| svgWidth := width o;
                svgHeight := height o;
                rectFill := background o;
                noiseSVG := noiseSVG;
                textSVG := paths lay |} in
  k <- generateKey 16 ;;
  ret ({| key := k; text := text; data := svg |},
       {| defaults := defaults this;
          options := options this;
          chars := chars this;
          captchaKey := Some k;
          captchaText := Some text |}).

(** *** storeCaptcha and verifyCaptcha *)

(** How a call that touches no randomness ends. *)
Inductive outcome (A : Type) : Type :=
| Returned (a : A)
| Thrown (e : exn).
Arguments Returned {A} a.
Arguments Thrown {A} e.

(** [!x] for a property that holds [null] or a string. *)
Definition falsy (x : option string) : bool :=
  match x with
  | None => true
  | Some s => s =? ""
  end.

(** The storage callback acts on a store of type [S]: called with the key,
    the value and the time to live, it settles with the store it leaves. *)
Definition setter (S : Type) : Type :=
  string -> string -> Q -> S -> settled S.

(** The fetch callback settles with the value it found. *)
Definition getter : Type := string -> settled value.

(** [await p]: the value of a fulfilled promise; a rejected one throws. *)
Definition awaited {A} (p : settled A) : outcome A :=
  match p with
  | Fulfilled a => Returned a
  | Rejected reason => Thrown (Raised reason)
  end.

(** [storeCaptcha(ttl, setFn)], run against the store [s]. Past the second
    test neither property is [null], so the last branch is never taken. *)
Definition storeCaptcha {S} (this : instance) (ttl : Q)
    (setFn : callable (setter S)) (s : S) : outcome S :=
  match setFn with
  | NotAFunction _ => Thrown (JsError "setFn must be a function")
  | Function f =>
      if falsy (captchaKey this) || falsy (captchaText this)
      then Thrown (JsError "No captcha generated yet.")
      else
        match captchaKey this, captchaText this with
        | Some k, Some t => awaited (f ("captcha:" ++ k) t ttl s)
        | _, _ => Thrown (JsError "No captcha generated yet.")
        end
  end.

(** [verifyCaptcha(userInput, captchaKey, getFn)] *)
Definition verifyCaptcha (this : instance) (userInput : string)
    (captchaKey : string) (getFn : callable getter) : outcome value :=
  match getFn with
  | NotAFunction _ => Thrown (JsError "getFn must be a function")
  | Function f =>
      match f ("captcha:" ++ captchaKey) with
      | Fulfilled storedValue =>
          Returned
            (jsAnd storedValue
                   (VBool (strictEq storedValue (VString userInput))))
      | Rejected reason => Thrown (Raised reason)
      end
  end.

End CaptchaGenerator.

Import CaptchaGenerator.

(* ------------------------------------------------------------------ *)
(** ** src/generateCaptcha.js *)

(** [generateCaptcha(options, fontsFamily)]: a fresh generator, and what
    its [generate()] resolves to. *)
Definition generateCaptcha (o : overrides) (fontsFamily : list string)
  : M challenge :=
  captchaGen <- new o fontsFamily ;;
  r <- generate captchaGen ;;
  ret (fst r).

(* ------------------------------------------------------------------ *)
(** ** What runs are considered *)

(** [Math.random()] yields a number in [[0, 1)]. *)
Definition fair (w : world) : Prop :=
  forall i, (0 <= random w i)%Q /\ (random w i < 1)%Q.

(** Running a computation only moves the cursor of the random source. *)
Definition sameEnv (w w' : world) : Prop :=
  random w' = random w /\ clock w' = clock w /\ fontStore w' = fontStore w.

(** [m] returns from [w], with a result that satisfies [post]. *)
Definition runs {A} (m : M A) (w : world) (post : A -> Prop) : Prop :=
  exists a w', m w = Ok a w' /\ sameEnv w w' /\ post a.

(** Every configured font file can be loaded. *)
Definition fontsLoad (this : instance) (w : world) : Prop :=
  Forall (fun file => fontStore w file <> None) (fontFiles (options this)).

(** The pool of the instance is the one its options describe, as the
    constructor leaves it. *)
Definition wellFormed (this : instance) : Prop :=
  chars this = pool (options this).

(** What a pick of [generate] can be: a character of the pool, or
    [undefined] when the pool is empty. *)
Definition picked (this : instance) (c : option ascii) : Prop :=
  (chars this = [] -> c = None) /\
  (chars this <> [] -> exists ch, c = Some ch /\ In ch (chars this)).

(** The seven names of the presets. *)
Definition recognized : list string :=
  ["upper"; "lower"; "numbers"; "letters"; "upper-alphanum";
   "lower-alphanum"; "all"].

(** The horizontal position at which a path ends. *)
Definition endX (d : list command) : num :=
  match last d (MoveTo (Fin 0) 0) with
  | MoveTo x _ => x
  | QuadTo _ _ x _ => x
  end.

(** Consecutive curves of a noise path from [prev]: the control point lies
    one [step] after the previous end point, and the end point one more
    [step] after the control point. *)
Fixpoint advances (step prev : Q) (segs : list command) : Prop :=
  match segs with
  | [] => True
  | QuadTo (Fin m) _ (Fin e) _ :: rest =>
      m = (prev + step)%Q /\ e = (m + step)%Q /\ advances step e rest
  | _ => False
  end.

(** The vertical coordinates of a command lie in [[0, h)]. *)
Definition withinHeight (h : Q) (c : command) : Prop :=
  match c with
  | MoveTo _ y => (0 <= y)%Z /\ (inject_Z y < h)%Q
  | QuadTo _ midY _ endY =>
      ((0 <= midY)%Z /\ (inject_Z midY < h)%Q) /\
      ((0 <= endY)%Z /\ (inject_Z endY < h)%Q)
  end.

(** The pool and the font files of the generator that
    [new CaptchaGenerator(o, fontsFamily)] builds; neither depends on the
    two random colours. *)
Definition effectivePool (o : overrides) : list ascii :=
  pool (spread (defaultOptions [] "" "") o).

Definition effectiveFonts (o : overrides) (fontsFamily : list string)
  : list string :=
  fontFiles (spread (defaultOptions fontsFamily "" "") o).

(** A store in memory, as the demonstration script has it: [store.set] and
    [store.get(key) || null] on a map from keys to values, the latest
    binding of a key first. The timer that deletes an entry when its time
    to live has passed is left out. *)
Definition memory : Type := list (string * string).

Definition memorySet : setter memory :=
  fun k v _ m => Fulfilled ((k, v) :: m).

Fixpoint memoryLookup (m : memory) (k : string) : option string :=
  match m with
  | [] => None
  | (k', v) :: m' => if k' =? k then Some v else memoryLookup m' k
  end.

Definition memoryGet (m : memory) : getter :=
  fun k => match memoryLookup m k with
           | Some v => Fulfilled (jsOr (VString v) VNull)
           | None => Fulfilled VNull
           end.

(* ------------------------------------------------------------------ *)
(** ** Concrete inputs *)

(** A font in which every glyph is half an em wide. *)
Definition demoFont : font :=
  {| unitsPerEm := 1000;
     charToGlyph := fun ch => {| glyphFont := "LiberationSerif";
                                 glyphChar := ch;
                                 advanceWidth := 500 |} |}.

(** A world in which every font file loads, and [Math.random()] cycles
    through 0, 0.1, ..., 0.9. *)
Definition demoWorld : world :=
  {| random := fun i => (Z.of_nat (i mod 10) # 10)%Q;
     drawn := 0;
     clock := 1700000000000;
     fontStore := fun _ => Some demoFont |}.

(** [{ presetType: "numbers", ignoreChars: "0123456789" }]: every
    character of the preset is ignored. *)
Definition allIgnored : overrides :=
  {| size' := None; ignoreChars' := Some "0123456789"; noise' := None;
     background' := None; width' := None; height' := None;
     fontSize' := None; presetType' := Some (VString "numbers");
     fontFiles' := None; fontColour' := None; noiseColour' := None;
     noiseWidth' := None; messy' := None |}.

(** [{ noise: 1, noiseWidth: 5 }] *)
Definition thickNoise : overrides :=
  {| size' := None; ignoreChars' := None; noise' := Some 1%nat;
     background' := None; width' := None; height' := None;
     fontSize' := None; presetType' := None;
     fontFiles' := None; fontColour' := None; noiseColour' := None;
     noiseWidth' := Some 5%Q; messy' := None |}.

(** The default options with fixed colours, ten characters and
    [messy: false]. *)
Definition demoOptions : CaptchaOptions :=
  {| size := 10; ignoreChars := ""; noise := 2; background := "#ffffff";
     width := 150; height := 50; fontSize := 36;
     presetType := VString "all"; fontFiles := [bundledFont];
     fontColour := "#000"; noiseColour := "#5096ff"; noiseWidth := 2;
     messy := false |}.

(** The baseline [height / 2 + fontSize / 3] of [demoOptions]. *)
Definition demoBaseline : Q := (50 / 2 + 36 / 3)%Q.

(** An instance that holds the answer ["Zx81captch"] under the key
    ["AbCdEfGhIjKlMnOployw3v28"]. *)
Definition servedInstance : instance :=
  {| defaults := demoOptions;
     options := demoOptions;
     chars := pool demoOptions;
     captchaKey := Some "AbCdEfGhIjKlMnOployw3v28";
     captchaText := Some "Zx81captch" |}.

(** A fetch that finds ["WRONG"] under every key. *)
Definition staleFetch : getter := fun _ => Fulfilled (VString "WRONG").

(** [servedInstance] with [fontFiles: []]. *)
Definition fontlessInstance : instance :=
  {| defaults := demoOptions;
     options :=
       {| size := 10; ignoreChars := ""; noise := 2;
          background := "#ffffff"; width := 150; height := 50;
          fontSize := 36; presetType := VString "all"; fontFiles := [];
          fontColour := "#000"; noiseColour := "#5096ff"; noiseWidth := 2;
          messy := false |};
     chars := pool demoOptions;
     captchaKey := None;
     captchaText := None |}.

(** [demoWorld] without any font file. *)
Definition emptyDisk : world :=
  {| random := random demoWorld;
     drawn := 0;
     clock := clock demoWorld;
     fontStore := fun _ => None |}.

(* ------------------------------------------------------------------ *)
(** ** Properties *)

(** *** Reasoning about runs *)

Lemma sameEnv_refl w : sameEnv w w.
Proof. repeat split. Qed.

Lemma sameEnv_trans w1 w2 w3 :
  sameEnv w1 w2 -> sameEnv w2 w3 -> sameEnv w1 w3.
Proof.
  intros (r1 & c1 & f1) (r2 & c2 & f2).
  repeat split; congruence.
Qed.

Lemma fair_sameEnv w w' : fair w -> sameEnv w w' -> fair w'.
Proof.
  intros Hf (r & _ & _) i. rewrite r. apply Hf.
Qed.

Lemma runs_ret {A} (a : A) w (post : A -> Prop) :
  post a -> runs (ret a) w post.
Proof.
  intros H. exists a, w. split; [reflexivity|]. split; [apply sameEnv_refl | exact H].
Qed.

Lemma runs_bind {A B} (m : M A) (k : A -> M B) w
      (mid : A -> Prop) (post : B -> Prop) :
  runs m w mid ->
  (forall a w', sameEnv w w' -> mid a -> runs (k a) w' post) ->
  runs (bind m k) w post.
Proof.
  intros (a & w1 & Hm & He & Ha) Hk.
  destruct (Hk a w1 He Ha) as (b & w2 & Hb & He' & Hp).
  exists b, w2. unfold bind. rewrite Hm.
  split; [exact Hb|]. split; [eapply sameEnv_trans; eassumption | exact Hp].
Qed.

Lemma runs_weaken {A} (m : M A) w (p q : A -> Prop) :
  runs m w p -> (forall a, p a -> q a) -> runs m w q.
Proof.
  intros (a & w' & Hm & He & Ha) Hpq. exists a, w'. auto.
Qed.

Lemma runs_replicateM {A} (f : M A) (post : A -> Prop) n : forall w,
  (forall w', sameEnv w w' -> runs f w' post) ->
  runs (replicateM n f) w
       (fun ys => List.length ys = n /\ Forall post ys).
Proof.
  induction n as [|n IH]; intros w Hf; simpl.
  - apply runs_ret. split; [reflexivity | constructor].
  - eapply runs_bind; [apply Hf, sameEnv_refl|].
    intros y w1 He Hy.
    eapply runs_bind.
    + apply IH. intros w2 He2. apply Hf. eapply sameEnv_trans; eassumption.
    + intros ys w2 _ [Hlen Hall]. apply runs_ret.
      split; [simpl; congruence | constructor; assumption].
Qed.

Lemma runs_mapM {A B} (f : A -> M B) (post : A -> B -> Prop) xs :
  forall w,
  (forall x w', In x xs -> sameEnv w w' -> runs (f x) w' (post x)) ->
  runs (mapM f xs) w (Forall2 post xs).
Proof.
  induction xs as [|x xs IH]; intros w Hf; simpl.
  - apply runs_ret. constructor.
  - eapply runs_bind; [apply Hf; [left; reflexivity | apply sameEnv_refl]|].
    intros y w1 He Hy.
    eapply runs_bind.
    + apply IH. intros x' w2 Hin He2.
      apply Hf; [right; exact Hin | eapply sameEnv_trans; eassumption].
    + intros ys w2 _ Hall. apply runs_ret. constructor; assumption.
Qed.

Lemma runs_foldM {A S} (body : S -> A -> M S) (inv : S -> Prop) xs :
  forall s w,
  inv s ->
  (forall s x w', In x xs -> sameEnv w w' -> inv s ->
                  runs (body s x) w' inv) ->
  runs (foldM body s xs) w inv.
Proof.
  induction xs as [|x xs IH]; intros s w Hs Hbody; simpl.
  - apply runs_ret, Hs.
  - eapply runs_bind.
    + apply Hbody; [left; reflexivity | apply sameEnv_refl | exact Hs].
    + intros s' w1 He Hs'. apply IH; [exact Hs'|].
      intros s2 x' w2 Hin He2 Hs2.
      apply Hbody; [right; exact Hin | eapply sameEnv_trans; eassumption
                   | exact Hs2].
Qed.

(** *** randomInt *)

Lemma Math_random_runs w :
  runs Math_random w (fun u => u = random w (drawn w)).
Proof.
  eexists _, _. split; [reflexivity|]. split; [repeat split | reflexivity].
Qed.

(** [randomInt(min, max)] always returns, and for integer bounds with
    [min <= max] the result of the exact computation lies in [[min, max)]
    (it is [min] when the range is empty). *)
Lemma randomInt_range (lo hi : Z) w :
  fair w -> (lo <= hi)%Z ->
  runs (randomInt (inject_Z lo) (inject_Z hi)) w
       (fun z => (lo <= z)%Z /\ ((lo < hi)%Z -> (z < hi)%Z)).
Proof.
  intros Hf Hle. unfold randomInt.
  eapply runs_bind; [apply Math_random_runs|].
  intros u w' _ ->. apply runs_ret.
  destruct (Hf (drawn w)) as [H0 H1].
  set (u := random w (drawn w)) in *.
  assert (Hd : (0 <= inject_Z hi - inject_Z lo)%Q).
  { unfold Qminus. rewrite <- Qle_minus_iff. rewrite <- Zle_Qle. exact Hle. }
  split.
  - rewrite <- (Qfloor_Z lo) at 1. apply Qfloor_resp_le.
    rewrite <- (Qplus_0_l (inject_Z lo)) at 1.
    apply Qplus_le_l. apply Qmult_le_0_compat; assumption.
  - intros Hlt.
    assert (Hd' : (0 < inject_Z hi - inject_Z lo)%Q).
    { unfold Qminus. rewrite <- Qlt_minus_iff. rewrite <- Zlt_Qlt. exact Hlt. }
    rewrite Zlt_Qlt.
    eapply Qle_lt_trans; [apply Qfloor_le|].
    assert (Hm : (u * (inject_Z hi - inject_Z lo)
                  < 1 * (inject_Z hi - inject_Z lo))%Q).
    { apply Qmult_lt_compat_r; assumption. }
    apply (Qplus_lt_l _ _ (inject_Z lo)) in Hm.
    eapply Qlt_le_trans; [exact Hm|].
    apply Qle_lteq. right. ring.
Qed.

(** Without any assumption on the random source, [randomInt] returns. *)
Lemma randomInt_runs lo hi w : runs (randomInt lo hi) w (fun _ => True).
Proof.
  unfold randomInt. eapply runs_bind; [apply Math_random_runs|].
  intros. apply runs_ret. exact I.
Qed.

(** *** Character presets *)

(** C8. [buildCharPreset] is a total function (it has no effect and cannot
    fail); each of the seven recognized names yields its documented set,
    and any other argument yields the union of the uppercase letters, the
    lowercase letters and the digits. *)
Theorem buildCharPreset_total :
  buildCharPreset (VString "upper") = "ABCDEFGHIJKLMNOPQRSTUVWXYZ" /\
  buildCharPreset (VString "lower") = "abcdefghijklmnopqrstuvwxyz" /\
  buildCharPreset (VString "numbers") = "0123456789" /\
  buildCharPreset (VString "letters")
  = "ABCDEFGHIJKLMNOPQRSTUVWXYZabcdefghijklmnopqrstuvwxyz" /\
  buildCharPreset (VString "upper-alphanum")
  = "ABCDEFGHIJKLMNOPQRSTUVWXYZ0123456789" /\
  buildCharPreset (VString "lower-alphanum")
  = "abcdefghijklmnopqrstuvwxyz0123456789" /\
  buildCharPreset (VString "all")
  = "ABCDEFGHIJKLMNOPQRSTUVWXYZabcdefghijklmnopqrstuvwxyz0123456789" /\
  (forall type : value,
      (forall name, In name recognized -> type <> VString name) ->
      buildCharPreset type
      = "ABCDEFGHIJKLMNOPQRSTUVWXYZabcdefghijklmnopqrstuvwxyz0123456789").
Proof.
  repeat (split; [reflexivity|]).
  intros type Hother.
  destruct type as [| | b | n | t]; try reflexivity.
  assert (Hne : forall name, In name recognized -> (t =? name) = false).
  { intros name Hin. apply String.eqb_neq. intros ->.
    exact (Hother name Hin eq_refl). }
  unfold buildCharPreset.
  rewrite !Hne by (simpl; tauto).
  reflexivity.
Qed.

(** [buildCharPreset_total] at work on the concrete inputs. *)
Lemma buildCharPreset_total_witness :
  buildCharPreset (VString "digits")
  = "ABCDEFGHIJKLMNOPQRSTUVWXYZabcdefghijklmnopqrstuvwxyz0123456789"
  /\ buildCharPreset VUndefined
  = "ABCDEFGHIJKLMNOPQRSTUVWXYZabcdefghijklmnopqrstuvwxyz0123456789".
Proof.
  destruct buildCharPreset_total as (_ & _ & _ & _ & _ & _ & _ & Hother).
  split; apply Hother; intros name Hin; simpl in Hin;
    decompose [or] Hin; subst; try discriminate; contradiction.
Defined.

(** *** verifyCaptcha *)

(** [verifyCaptcha] throws its own error exactly when [getFn] is not a
    function. *)
Lemma verifyCaptcha_throws_iff this userInput k getFn :
  verifyCaptcha this userInput k getFn
  = Thrown (JsError "getFn must be a function")
  <-> exists v, getFn = NotAFunction v.
Proof.
  split.
  - destruct getFn as [v | f]; [eauto|].
    simpl. destruct (f _); discriminate.
  - intros [v ->]. reflexivity.
Qed.

(** With a fetch that settles on [stored], the returned value is truthy
    exactly when [stored] is a non-empty string equal to [userInput], and
    it is then [true]. *)
Lemma verifyCaptcha_match this userInput k f stored :
  f ("captcha:" ++ k) = Fulfilled stored ->
  exists r,
    verifyCaptcha this userInput k (Function f) = Returned r /\
    (truthy r = true <-> stored = VString userInput /\ userInput <> "") /\
    (truthy r = true -> r = VBool true).
Proof.
  intros Hf. unfold verifyCaptcha. rewrite Hf. eexists. split; [reflexivity|].
  unfold jsAnd.
  destruct stored as [| | [|] | [q | | |] | s]; cbn [truthy strictEq];
    try (destruct (Qeq_bool q 0) eqn:Hq; cbn [negb truthy]; rewrite ?Hq);
    cbn [negb truthy];
    try (split; [split; [intros H; discriminate H
                        | intros [H _]; discriminate H]
                | intros H; discriminate H]).
  - destruct (String.eqb_spec s "") as [-> | Hne]; simpl.
    + split; [|discriminate]. split; [discriminate|].
      intros [H1 H2]. inversion H1. congruence.
    + destruct (String.eqb_spec s userInput) as [-> | Hd]; simpl.
      * split; [|reflexivity]. split; [intros _; split; [reflexivity | exact Hne]
                                      | reflexivity].
      * split; [|discriminate]. split; [discriminate|].
        intros [H1 _]. inversion H1. contradiction.
Qed.

(** C2, at the input on which the code departs from it: when the fetch
    finds nothing ([null], or [undefined] for a map lookup), the function
    hands back that value itself and not the boolean [false]; so does it
    for a stored empty string that equals the input. *)
Theorem verifyCaptcha_absent_not_false this k :
  verifyCaptcha this "abc" k (Function (fun _ => Fulfilled VNull))
  = Returned VNull /\
  verifyCaptcha this "abc" k (Function (fun _ => Fulfilled VUndefined))
  = Returned VUndefined /\
  verifyCaptcha this "" k (Function (fun _ => Fulfilled (VString "")))
  = Returned (VString "") /\
  VNull <> VBool false /\ VUndefined <> VBool false /\
  VString "" <> VBool true.
Proof.
  repeat split; discriminate.
Qed.

(** *** Runs that return *)

Lemma bind_Ok {A B} (m : M A) (k : A -> M B) w b w' :
  bind m k w = Ok b w' ->
  exists a w1, m w = Ok a w1 /\ k a w1 = Ok b w'.
Proof.
  unfold bind. destruct (m w) as [a w1 | e]; [eauto | discriminate].
Qed.

Lemma ret_Ok {A} (a b : A) w w' : ret a w = Ok b w' -> b = a /\ w' = w.
Proof. unfold ret. intros H. inversion H. auto. Qed.

Lemma mapM_Ok {A B} (f : A -> M B) (post : A -> B -> Prop) :
  (forall x w y w', f x w = Ok y w' -> post x y) ->
  forall xs w ys w', mapM f xs w = Ok ys w' -> Forall2 post xs ys.
Proof.
  intros Hf. induction xs as [|x xs IH]; intros w ys w' H; simpl in H.
  - apply ret_Ok in H as [-> _]. constructor.
  - apply bind_Ok in H as (y & w1 & Hy & H).
    apply bind_Ok in H as (ys' & w2 & Hys & H).
    apply ret_Ok in H as [-> _].
    constructor; [eapply Hf | eapply IH]; eassumption.
Qed.

Lemma foldM_Ok {A S} (body : S -> A -> M S) (inv : S -> Prop) :
  (forall s x w s' w', inv s -> body s x w = Ok s' w' -> inv s') ->
  forall xs s w s' w', inv s -> foldM body s xs w = Ok s' w' -> inv s'.
Proof.
  intros Hbody. induction xs as [|x xs IH]; intros s w s' w' Hs H;
    simpl in H.
  - apply ret_Ok in H as [-> _]. exact Hs.
  - apply bind_Ok in H as (s1 & w1 & H1 & H).
    eapply IH; [eapply Hbody; eassumption | exact H].
Qed.

(** A callback without effect maps like [List.map]. *)
Lemma mapM_pure {A B} (f : A -> M B) (g : A -> B) :
  (forall x w, f x w = Ok (g x) w) ->
  forall xs w, mapM f xs w = Ok (map g xs) w.
Proof.
  intros Hf. induction xs as [|x xs IH]; intros w; simpl; [reflexivity|].
  unfold bind. rewrite Hf, IH. reflexivity.
Qed.

Lemma foldM_pure {A S} (body : S -> A -> M S) (g : S -> A -> S) :
  (forall s x w, body s x w = Ok (g s x) w) ->
  forall xs s w, foldM body s xs w = Ok (fold_left g xs s) w.
Proof.
  intros Hb. induction xs as [|x xs IH]; intros s w; simpl; [reflexivity|].
  unfold bind. rewrite Hb. apply IH.
Qed.

Lemma fold_left_add_map {A} (h : A -> num) xs : forall a,
  fold_left (fun sum x => (sum + h x)%num) xs a
  = fold_left Num.add (map h xs) a.
Proof.
  induction xs as [|x xs IH]; intros a; simpl; [reflexivity | apply IH].
Qed.

(** *** The scale of the layouts *)

(** [Math.min(1, r)] is never greater than 1, whatever [r] is. *)
Lemma min_one_not_above r : Num.gt (Num.min (Fin 1) r) (Fin 1) = false.
Proof.
  destruct r as [q | | |]; try reflexivity. simpl.
  destruct (Qle_bool 1 q) eqn:Hq; simpl.
  - reflexivity.
  - apply negb_false_iff. apply Qle_bool_iff.
    destruct (Qlt_le_dec q 1) as [Hlt | Hge].
    + apply Qlt_le_weak, Hlt.
    + apply Qle_bool_iff in Hge. congruence.
Qed.

(** Unless it is NaN, [Math.min(1, r)] is at most 1. *)
Lemma min_one_le r :
  Num.isNaN r = false -> Num.le (Num.min (Fin 1) r) (Fin 1) = true.
Proof.
  destruct r as [q | | |]; try reflexivity; try discriminate. intros _. simpl.
  destruct (Qle_bool 1 q) eqn:Hq; simpl.
  - reflexivity.
  - apply Qle_bool_iff.
    destruct (Qlt_le_dec q 1) as [Hlt | Hge].
    + apply Qlt_le_weak, Hlt.
    + apply Qle_bool_iff in Hge. congruence.
Qed.

(** The locals of a returning straight layout. *)
Lemma straight_Ok o loadedFonts text y w lay w' :
  straight o loadedFonts text y w = Ok lay w' ->
  scale lay = straightScale o (totalWidth lay) /\
  (exists widths,
      Forall2 (fun ch wd =>
                 exists f, nth_error loadedFonts 0 = Some f /\
                           wd = scaledAdvance o f (charToGlyph f ch))
              (list_ascii_of_string text) widths /\
      totalWidth lay
      = (sumWidths widths
         + Fin gap * ofZ (Z.of_nat (String.length text) - 1))%num) /\
  Forall (fun p => atSize (d p) = (Fin (fontSize o) * scale lay)%num /\
                   transform p = None)
         (paths lay).
Proof.
  unfold straight. intros H.
  apply bind_Ok in H as (glyphs & w1 & Hg & H).
  apply bind_Ok in H as (nw & w2 & Hn & H).
  apply bind_Ok in H as (acc & w3 & Hacc & H).
  apply ret_Ok in H as [-> _]. cbn [scale totalWidth paths].
  split; [reflexivity|]. split.
  - destruct (nth_error loadedFonts 0) as [f|] eqn:Hfont.
    + rewrite (mapM_pure _ (charToGlyph f)) in Hg by reflexivity.
      inversion Hg; subst glyphs w1; clear Hg.
      rewrite (foldM_pure _ (fun sum g => (sum + scaledAdvance o f g)%num))
        in Hn by reflexivity.
      inversion Hn; subst nw w2; clear Hn.
      exists (map (fun ch => scaledAdvance o f (charToGlyph f ch))
                  (list_ascii_of_string text)).
      split.
      * clear. induction (list_ascii_of_string text) as [|c cs IH];
          simpl; constructor; eauto.
      * unfold sumWidths. rewrite fold_left_add_map, map_map. reflexivity.
    + destruct (list_ascii_of_string text) as [|c cs].
      * simpl in Hg. apply ret_Ok in Hg as [-> ->].
        simpl in Hn. apply ret_Ok in Hn as [-> _].
        exists []. split; [constructor | reflexivity].
      * discriminate Hg.
  - set (sc := straightScale o _) in *.
    revert Hacc.
    apply (foldM_Ok _ (fun acc : list textPath * num =>
             Forall (fun p => atSize (d p) = (Fin (fontSize o) * sc)%num /\
                              transform p = None) (fst acc))).
    + intros [svg0 x] g wa s' wb Hinv Hbody.
      apply bind_Ok in Hbody as (f & wc & _ & Hbody).
      apply ret_Ok in Hbody as [-> _]. cbn [fst] in *.
      apply Forall_app. split; [exact Hinv|].
      constructor; [split; reflexivity | constructor].
    + constructor.
Qed.

(** The locals of a returning messy layout. *)
Lemma messyLayout_Ok o loadedFonts text y w lay w' :
  messyLayout o loadedFonts text y w = Ok lay w' ->
  scale lay = messyScale o (totalWidth lay) /\
  (exists widths,
      Forall2 (fun ch wd =>
                 exists f, In f loadedFonts /\
                           wd = scaledAdvance o f (charToGlyph f ch))
              (list_ascii_of_string text) widths /\
      totalWidth lay = sumWidths widths) /\
  Forall (fun p => atSize (d p) = (Fin (fontSize o) * scale lay)%num /\
                   exists r, transform p = Some r /\ pivotY r = Fin y)
         (paths lay).
Proof.
  unfold messyLayout. intros H.
  apply bind_Ok in H as (widths & w1 & Hw & H).
  apply bind_Ok in H as (acc & w2 & Hacc & H).
  apply ret_Ok in H as [-> _]. cbn [scale totalWidth paths].
  split; [reflexivity|]. split.
  - exists widths. split; [|reflexivity].
    revert Hw. apply mapM_Ok.
    intros ch wa wd wb Hb.
    apply bind_Ok in Hb as (font & wc & Hpick & Hb).
    apply bind_Ok in Hb as (f & wd' & Hderef & Hb).
    apply ret_Ok in Hb as [-> _].
    exists f. split; [|reflexivity].
    destruct font as [f'|]; [|discriminate Hderef].
    apply ret_Ok in Hderef as [-> _].
    unfold pickFont in Hpick.
    apply bind_Ok in Hpick as (i & we & _ & Hpick).
    apply ret_Ok in Hpick as [Hidx _].
    unfold index in Hidx. destruct (i <? 0)%Z; [discriminate|].
    symmetry in Hidx. eapply nth_error_In, Hidx.
  - set (sc := messyScale o _) in *.
    revert Hacc.
    apply (foldM_Ok _ (fun acc : list textPath * num =>
             Forall (fun p => atSize (d p) = (Fin (fontSize o) * sc)%num /\
                              exists r, transform p = Some r /\
                                        pivotY r = Fin y) (fst acc))).
    + intros [svg0 x] ch wa s' wb Hinv Hbody.
      apply bind_Ok in Hbody as (font & wc & _ & Hbody).
      apply bind_Ok in Hbody as (f & wd & _ & Hbody).
      apply bind_Ok in Hbody as (rot & we & _ & Hbody).
      apply ret_Ok in Hbody as [-> _]. cbn [fst] in *.
      apply Forall_app. split; [exact Hinv|].
      constructor; [|constructor].
      split; [reflexivity|]. eexists. split; reflexivity.
    + constructor.
Qed.

(** C5. In either layout the scale is [Math.min(1, available / total)],
    with [available] the canvas width less 10 in straight mode and the
    canvas width in messy mode, and [total] the sum of the scaled advance
    widths, plus in straight mode 3 for each space between characters; it
    is never greater than 1, and every glyph is drawn at the font size
    times the scale. *)
Theorem scale_never_exceeds_one o loadedFonts text y w lay w' :
  (straight o loadedFonts text y w = Ok lay w' ->
   scale lay
   = Num.min (Fin 1) ((Fin (width o) - Fin 10) / totalWidth lay)%num /\
   (exists widths,
       Forall2 (fun ch wd =>
                  exists f, nth_error loadedFonts 0 = Some f /\
                            wd = scaledAdvance o f (charToGlyph f ch))
               (list_ascii_of_string text) widths /\
       totalWidth lay
       = (sumWidths widths
          + Fin 3 * ofZ (Z.of_nat (String.length text) - 1))%num) /\
   Num.gt (scale lay) (Fin 1) = false /\
   Forall (fun p => atSize (d p) = (Fin (fontSize o) * scale lay)%num)
          (paths lay))
  /\
  (messyLayout o loadedFonts text y w = Ok lay w' ->
   scale lay = Num.min (Fin 1) (Fin (width o) / totalWidth lay)%num /\
   (exists widths,
       Forall2 (fun ch wd =>
                  exists f, In f loadedFonts /\
                            wd = scaledAdvance o f (charToGlyph f ch))
               (list_ascii_of_string text) widths /\
       totalWidth lay = sumWidths widths) /\
   Num.gt (scale lay) (Fin 1) = false /\
   Forall (fun p => atSize (d p) = (Fin (fontSize o) * scale lay)%num)
          (paths lay)).
Proof.
  split; intros H.
  - apply straight_Ok in H as (Hs & Hw & Hp).
    split; [exact Hs|]. split; [exact Hw|]. split.
    + rewrite Hs. apply min_one_not_above.
    + eapply Forall_impl; [|exact Hp]. intros p [Hsz _]. exact Hsz.
  - apply messyLayout_Ok in H as (Hs & Hw & Hp).
    split; [exact Hs|]. split; [exact Hw|]. split.
    + rewrite Hs. apply min_one_not_above.
    + eapply Forall_impl; [|exact Hp]. intros p [Hsz _]. exact Hsz.
Qed.

(** [scale_never_exceeds_one] at work on the concrete inputs. *)
Lemma scale_never_exceeds_one_witness :
  (exists lay w',
      straight demoOptions [demoFont] "Zx81captcha" demoBaseline demoWorld
      = Ok lay w' /\
      Num.gt (scale lay) (Fin 1) = false /\
      (scale lay == Fin (140 # 228))%num) /\
  (exists lay w',
      messyLayout demoOptions [demoFont; demoFont] "Zx81captcha"
                  demoBaseline demoWorld
      = Ok lay w' /\
      Num.gt (scale lay) (Fin 1) = false /\
      (scale lay == Fin (150 # 198))%num).
Proof.
  split.
  - destruct (straight demoOptions [demoFont] "Zx81captcha" demoBaseline
                       demoWorld) as [lay w' | e] eqn:E.
    + exists lay, w'. split; [reflexivity|]. split.
      * destruct (proj1 (scale_never_exceeds_one
                           demoOptions [demoFont] "Zx81captcha"
                           demoBaseline demoWorld lay w') E)
          as (_ & _ & Hle & _).
        exact Hle.
      * vm_compute in E. inversion E. reflexivity.
    + vm_compute in E. discriminate E.
  - destruct (messyLayout demoOptions [demoFont; demoFont] "Zx81captcha"
                          demoBaseline demoWorld) as [lay w' | e] eqn:E.
    + exists lay, w'. split; [reflexivity|]. split.
      * destruct (proj2 (scale_never_exceeds_one
                           demoOptions [demoFont; demoFont] "Zx81captcha"
                           demoBaseline demoWorld lay w') E)
          as (_ & _ & Hle & _).
        exact Hle.
      * vm_compute in E. inversion E. reflexivity.
    + vm_compute in E. discriminate E.
Defined.

(** *** The layout of an empty text *)

(** C10 as stated fails in straight mode: with the default canvas of 150
    and an empty text, the total width is -3 and the scale is -140/3. *)
Lemma empty_text_straight_scale_not_one :
  exists lay w',
    straight demoOptions [demoFont] "" demoBaseline demoWorld = Ok lay w' /\
    paths lay = [] /\
    (totalWidth lay == Fin (-3))%num /\
    (scale lay == Fin (-140 # 3))%num /\
    ~ (scale lay == Fin 1)%num.
Proof.
  eexists. eexists. split; [vm_compute; reflexivity|].
  cbn [paths totalWidth scale].
  split; [reflexivity|]. split; [reflexivity|]. split; [reflexivity|].
  intros H. vm_compute in H. discriminate H.
Qed.

(** C10, amended. For an empty text both layouts return without touching
    a font and emit no path. There is no test for a zero width: in straight
    mode the total width is -3 (the gap times [length - 1]), so the divisor
    is not zero and the quotient is the ordinary one; in messy mode the
    total width is 0 and, on a canvas of positive width, the division gives
    +Infinity, so that the scale is 1. *)
Theorem empty_text_layout o loadedFonts y w :
  (exists lay,
      straight o loadedFonts "" y w = Ok lay w /\
      paths lay = [] /\
      (totalWidth lay == Fin (-3))%num /\
      ((Fin (width o) - Fin 10) / totalWidth lay
       == Fin ((width o - 10) / -3))%num /\
      scale lay
      = Num.min (Fin 1) ((Fin (width o) - Fin 10) / totalWidth lay)%num) /\
  (exists lay,
      messyLayout o loadedFonts "" y w = Ok lay w /\
      paths lay = [] /\
      totalWidth lay = Fin 0 /\
      ((0 < width o)%Q -> scale lay = Fin 1)).
Proof.
  split.
  - eexists. split; [reflexivity|]. cbn [paths totalWidth scale fst].
    split; [reflexivity|]. split; [reflexivity|]. split; [|reflexivity].
    cbn.
    assert (Hd : (0 + gap * inject_Z (-1) == -3)%Q) by reflexivity.
    rewrite Hd. unfold Qminus. reflexivity.
  - eexists. split; [reflexivity|]. cbn [paths totalWidth scale fst].
    split; [reflexivity|]. split; [reflexivity|].
    intros Hpos. unfold messyScale, sumWidths. cbn [fold_left Num.div].
    change (0 ?= 0)%Q with Eq. cbv iota.
    apply Qgt_alt in Hpos. rewrite Hpos. reflexivity.
Qed.

(** [empty_text_layout] at work on the concrete inputs. *)
Lemma empty_text_layout_witness :
  exists lay,
    messyLayout demoOptions [demoFont] "" demoBaseline demoWorld
    = Ok lay demoWorld /\
    paths lay = [] /\ totalWidth lay = Fin 0 /\ scale lay = Fin 1.
Proof.
  destruct (empty_text_layout demoOptions [demoFont] demoBaseline demoWorld)
    as [_ (lay & Hrun & Hp & Hw & Hs)].
  exists lay. repeat split; try assumption.
  apply Hs. reflexivity.
Defined.

(** *** Construction *)

Lemma demoWorld_fair : fair demoWorld.
Proof.
  intros i. cbn [random demoWorld].
  pose proof (Nat.mod_upper_bound i 10 ltac:(discriminate)) as Hi.
  unfold Qle, Qlt. cbn [Qnum Qden]. lia.
Qed.

Lemma randomColor_runs w : runs randomColor w (fun _ => True).
Proof.
  unfold randomColor.
  eapply runs_bind; [apply randomInt_runs|]. intros r w1 _ _.
  eapply runs_bind; [apply randomInt_runs|]. intros g w2 _ _.
  eapply runs_bind; [apply randomInt_runs|]. intros b w3 _ _.
  apply runs_ret. exact I.
Qed.

(** The constructor always returns: it checks nothing. The instance it
    builds holds the defaults with two random colours, the options spread
    over them, the filtered pool, no key and no text. *)
Lemma new_runs o fontsFamily w :
  runs (new o fontsFamily) w
       (fun this =>
          exists fc nc,
            this = {| defaults := defaultOptions fontsFamily fc nc;
                      options := spread (defaultOptions fontsFamily fc nc) o;
                      chars := pool (spread (defaultOptions fontsFamily fc nc)
                                            o);
                      captchaKey := None;
                      captchaText := None |}).
Proof.
  unfold new.
  eapply runs_bind; [apply randomColor_runs|]. intros fc w1 _ _.
  eapply runs_bind; [apply randomColor_runs|]. intros nc w2 _ _.
  apply runs_ret. exists fc, nc. reflexivity.
Qed.

(** *** Noise lines *)

Lemma div_by_integer (a : Q) (n : Z) :
  n <> 0%Z -> (Fin a / ofZ n)%num = Fin (a / inject_Z n).
Proof.
  intros Hn. unfold ofZ, Num.div.
  destruct (inject_Z n ?= 0)%Q eqn:Hc; try reflexivity.
  apply Qeq_alt in Hc. unfold Qeq in Hc. simpl in Hc. lia.
Qed.

(** The inner loop returns whatever the random source is, and only
    appends to the path. *)
Lemma noiseSegments_total o n remaining : forall d prev w,
  runs (noiseSegments o n remaining d prev) w
       (fun d' => exists segs,
            d' = (d ++ segs)%list /\ List.length segs = remaining).
Proof.
  induction remaining as [|r IH]; intros d prev w; simpl.
  - apply runs_ret. exists []. split; [symmetry; apply app_nil_r | reflexivity].
  - eapply runs_bind; [apply randomInt_runs|]. intros midY w1 _ _.
    eapply runs_bind; [apply randomInt_runs|]. intros endY w2 _ _.
    eapply runs_weaken; [apply IH|].
    intros d' (segs & -> & Hlen). eexists (_ :: segs).
    split; [rewrite <- app_assoc; reflexivity | simpl; congruence].
Qed.

(** With [n] segments, every curve of the inner loop advances by two steps
    of [width / n] (in the exact sums of the model). *)
Lemma noiseSegments_advances o n remaining :
  n <> 0%Z ->
  forall d prev w,
  runs (noiseSegments o n remaining d (Fin prev)) w
       (fun d' => exists segs,
            d' = (d ++ segs)%list /\ List.length segs = remaining /\
            advances (width o / inject_Z n) prev segs).
Proof.
  intros Hn. induction remaining as [|r IH]; intros d prev w;
    cbn [noiseSegments].
  - apply runs_ret. exists [].
    split; [symmetry; apply app_nil_r | split; [reflexivity | exact I]].
  - rewrite (div_by_integer _ _ Hn). cbn [Num.add].
    eapply runs_bind; [apply randomInt_runs|]. intros midY w1 _ _.
    eapply runs_bind; [apply randomInt_runs|]. intros endY w2 _ _.
    eapply runs_weaken; [apply IH|].
    intros d' (segs & -> & Hlen & Hadv). eexists (_ :: segs).
    split; [rewrite <- app_assoc; reflexivity|].
    split; [simpl; congruence|].
    simpl. auto.
Qed.

Lemma endX_snoc d c :
  endX (d ++ [c]) = match c with MoveTo x _ | QuadTo _ _ x _ => x end.
Proof. unfold endX. rewrite last_last. reflexivity. Qed.

(** A path continued by [k] advancing curves ends [2 * k] steps further. *)
Lemma advances_endX step : forall segs prev d,
  advances step prev segs ->
  endX d = Fin prev ->
  exists e, endX (d ++ segs) = Fin e /\
            (e == prev + inject_Z (2 * Z.of_nat (List.length segs)) * step)%Q.
Proof.
  induction segs as [|c segs IH]; intros prev d Hadv Hend.
  - exists prev. rewrite app_nil_r. split; [exact Hend|]. simpl. ring.
  - destruct c as [x y0 | m my e ey]; [contradiction|].
    destruct m as [m | | |]; try contradiction.
    destruct e as [e | | |]; try contradiction.
    destruct Hadv as (Hm & He & Hrest).
    destruct (IH e (d ++ [QuadTo (Fin m) my (Fin e) ey])%list Hrest)
      as (e' & Hend' & Heq); [apply endX_snoc|].
    exists e'. rewrite <- app_assoc in Hend'. split; [exact Hend'|].
    rewrite Heq, He, Hm.
    cbn [List.length]. rewrite Nat2Z.inj_succ.
    replace (2 * Z.succ (Z.of_nat (List.length segs)))%Z
      with (2 * Z.of_nat (List.length segs) + 2)%Z by lia.
    rewrite inject_Z_plus. ring.
Qed.

(** C4 as stated fails: on the default canvas of width 150 the first noise
    line drawn after construction has three segments and ends at x = 300,
    outside the canvas. *)
Lemma noise_path_overshoots :
  exists this w p w',
    new noOverrides [] demoWorld = Ok this w /\
    noiseLine this w = Ok p w' /\
    width (options this) = 150%Q /\
    (endX (noiseD p) == Fin 300)%num /\
    ~ (endX (noiseD p) == Fin (width (options this)))%num.
Proof.
  eexists. eexists. eexists. eexists.
  split; [vm_compute; reflexivity|].
  split; [vm_compute; reflexivity|].
  split; [reflexivity|]. split; [reflexivity|].
  intros H. vm_compute in H. discriminate H.
Qed.

(** C4, amended. A noise line has between 2 and 4 segments and its path
    starts at x = 0. On a canvas at least one unit wide the path ends to
    the right of the canvas width, not on it. When the width is a whole
    multiple of the number of segments, the control point of each curve
    lies exactly one step [width / segments] after the previous end point
    and its end point one more step after the control point, so each
    segment advances by two steps and the path ends at x = 2 * width.
    The bounds on the width and the divisibility keep every sum of the
    source a whole number below 2^53, which doubles add without rounding;
    for other widths the source's sums are rounded and only the first
    three facts are stated. *)
Theorem noise_path_span this w :
  fair w ->
  (1 <= width (options this))%Q ->
  (width (options this) <= inject_Z (2 ^ 50))%Q ->
  runs (noiseLine this) w
       (fun p => exists startY segs,
            noiseD p = MoveTo (Fin 0) startY :: segs /\
            (2 <= List.length segs <= 4)%nat /\
            (exists e, endX (noiseD p) = Fin e /\
                       (width (options this) < e)%Q) /\
            (forall step : Z,
                (width (options this)
                 == inject_Z (step * Z.of_nat (List.length segs)))%Q ->
                advances (width (options this)
                          / inject_Z (Z.of_nat (List.length segs))) 0 segs /\
                (endX (noiseD p) == Fin (2 * width (options this)))%num)).
Proof.
  intros Hfair Hpos _. unfold noiseLine.
  eapply runs_bind; [apply randomInt_runs|]. intros startY w1 He1 _.
  eapply runs_bind.
  { apply (randomInt_range 2 4); [eapply fair_sameEnv; eassumption | lia]. }
  intros n w2 He2 [Hlo Hhi]. specialize (Hhi ltac:(lia)).
  assert (Hn : n <> 0%Z) by lia.
  eapply runs_bind;
    [apply (noiseSegments_advances (options this) n (Z.to_nat n) Hn)|].
  intros d' w3 He3 (segs & -> & Hlen & Hadv).
  apply runs_ret. cbn [noiseD].
  exists startY, segs. split; [reflexivity|].
  split; [lia|].
  destruct (advances_endX _ segs 0%Q [MoveTo (Fin 0) startY] Hadv eq_refl)
    as (e & Hend & Heq).
  assert (Htwice : (e == 2 * width (options this))%Q).
  { rewrite Heq, Hlen, Z2Nat.id by lia.
    rewrite inject_Z_mult. field.
    intros H0. unfold Qeq in H0. simpl in H0. lia. }
  split.
  - exists e. split; [exact Hend|].
    rewrite Htwice.
    rewrite <- (Qplus_0_r (width (options this))) at 1.
    setoid_replace (2 * width (options this))%Q
      with (width (options this) + width (options this))%Q by ring.
    apply Qplus_lt_r.
    eapply Qlt_le_trans; [|exact Hpos]. reflexivity.
  - intros step _. rewrite Hlen, Z2Nat.id by lia. split; [exact Hadv|].
    rewrite Hend. simpl. exact Htwice.
Qed.

(** [noise_path_span] at work on the concrete inputs: on the default canvas
    the first noise line ends to the right of x = 150. *)
Lemma noise_path_span_witness :
  exists this w,
    new noOverrides [] demoWorld = Ok this w /\
    runs (noiseLine this) w
         (fun p => exists e, endX (noiseD p) = Fin e /\ (150 < e)%Q).
Proof.
  destruct (new_runs noOverrides [] demoWorld)
    as (this & w & Hnew & Henv & Hopt).
  exists this, w. split; [exact Hnew|].
  assert (Hw : width (options this) = 150%Q).
  { destruct Hopt as (fc & nc & ->). reflexivity. }
  eapply runs_weaken.
  - apply (noise_path_span this w).
    + eapply fair_sameEnv; [apply demoWorld_fair | exact Henv].
    + rewrite Hw. discriminate.
    + rewrite Hw. discriminate.
  - intros p (startY & segs & _ & _ & (e & He & Hlt) & _).
    exists e. rewrite Hw in Hlt. split; assumption.
Defined.

(** The noise paths have the configured colour and no fill, and their
    stroke width is read from [this.defaults], not from [this.options]. *)
Lemma generateWavyNoise_runs this count w :
  runs (generateWavyNoise this count) w
       (fun ps => List.length ps = count /\
                  Forall (fun p => stroke p = noiseColour (options this) /\
                                   noiseFill p = "none" /\
                                   strokeWidth p = noiseWidth (defaults this))
                         ps).
Proof.
  unfold generateWavyNoise. apply runs_replicateM. intros w' _.
  unfold noiseLine.
  eapply runs_bind; [apply randomInt_runs|]. intros startY w1 _ _.
  eapply runs_bind; [apply randomInt_runs|]. intros n w2 _ _.
  eapply runs_bind; [apply noiseSegments_total|]. intros d' w3 _ _.
  apply runs_ret. repeat split.
Qed.

(** C7, at the input on which the code departs from it. Whatever the
    caller sets for [noiseWidth], every noise path has the configured
    colour, no fill, and the stroke width 2 of the defaults; with
    [{ noise: 1, noiseWidth: 5 }] the one noise path of the generated image
    has stroke width 2. *)
Theorem noise_stroke_width_is_default :
  (forall o fontsFamily count w,
      runs (this <- new o fontsFamily ;;
            ps <- generateWavyNoise this count ;;
            ret (this, ps)) w
           (fun r => List.length (snd r) = count /\
                     noiseWidth (options (fst r)) = orDefault (noiseWidth' o) 2%Q /\
                     Forall (fun p =>
                               stroke p = noiseColour (options (fst r)) /\
                               noiseFill p = "none" /\
                               strokeWidth p = 2%Q)
                            (snd r))) /\
  (exists this w1 c this' w2,
      new thickNoise [] demoWorld = Ok this w1 /\
      generate this w1 = Ok (c, this') w2 /\
      noiseWidth (options this) = 5%Q /\
      map strokeWidth (noiseSVG (data c)) = [2%Q]).
Proof.
  split.
  - intros o fontsFamily count w.
    eapply runs_bind; [apply new_runs|].
    intros this w1 _ (fc & nc & ->).
    eapply runs_bind; [apply generateWavyNoise_runs|].
    intros ps w2 _ (Hlen & Hall).
    apply runs_ret. cbn [fst snd].
    split; [exact Hlen|]. split; [reflexivity|].
    eapply Forall_impl; [|exact Hall].
    intros p (Hs & Hf & Hw). rewrite Hw. auto.
  - eexists. eexists. eexists. eexists. eexists.
    split; [vm_compute; reflexivity|].
    split; [vm_compute; reflexivity|].
    split; reflexivity.
Qed.

(** *** Strings *)

Lemma length_append (a b : string) :
  String.length (a ++ b) = (String.length a + String.length b)%nat.
Proof.
  induction a as [|c a IH]; simpl; [reflexivity | rewrite IH; reflexivity].
Qed.

Lemma length_string_of_list_ascii l :
  String.length (string_of_list_ascii l) = List.length l.
Proof.
  induction l as [|c l IH]; simpl; [reflexivity | rewrite IH; reflexivity].
Qed.

(** When every pick is a character of [pool], the joined text has one
    character per pick, each of them in [pool]. *)
Lemma join_picked (pool : list ascii) picks :
  Forall (fun c => exists ch, c = Some ch /\ In ch pool) picks ->
  String.length (join picks) = List.length picks /\
  Forall (fun ch => In ch pool) (list_ascii_of_string (join picks)).
Proof.
  intros Hall. unfold join.
  rewrite length_string_of_list_ascii, list_ascii_of_string_of_list_ascii.
  induction Hall as [|c picks (ch & -> & Hin) _ [IHlen IHall]]; simpl.
  - split; [reflexivity | constructor].
  - split; [congruence | constructor; assumption].
Qed.

(** When every pick is [undefined], the joined text is empty. *)
Lemma join_undefined picks :
  Forall (fun c => c = @None ascii) picks -> join picks = "".
Proof.
  intros Hall. unfold join.
  induction Hall as [|c picks -> _ IH]; simpl; [reflexivity | exact IH].
Qed.

(** A character of the pool belongs to the preset and not to
    [ignoreChars]. *)
Lemma pool_spec o ch :
  In ch (pool o) <->
  In ch (list_ascii_of_string (buildCharPreset (presetType o))) /\
  includes (ignoreChars o) ch = false.
Proof.
  unfold pool. rewrite filter_In, negb_true_iff. reflexivity.
Qed.

Lemma includes_spec s ch :
  includes s ch = true <-> In ch (list_ascii_of_string s).
Proof.
  unfold includes. rewrite existsb_exists. split.
  - intros (x & Hin & Heq). apply Ascii.eqb_eq in Heq. subst. exact Hin.
  - intros Hin. exists ch. split; [exact Hin | apply Ascii.eqb_refl].
Qed.

(** *** generate *)

Lemma runs_of_eq {A} (m : M A) w a (post : A -> Prop) :
  m w = Ok a w -> post a -> runs m w post.
Proof.
  intros Hm Ha. exists a, w. split; [exact Hm|].
  split; [apply sameEnv_refl | exact Ha].
Qed.

(** A pick is a character of the pool, or [undefined] when the pool is
    empty. *)
Lemma pickChar_runs this w :
  fair w ->
  runs (pickChar this) w
       (fun c => (chars this = [] -> c = None) /\
                 (chars this <> [] ->
                  exists ch, c = Some ch /\ In ch (chars this))).
Proof.
  intros Hfair. unfold pickChar.
  eapply runs_bind.
  { apply (randomInt_range 0 (Z.of_nat (List.length (chars this))));
      [exact Hfair | lia]. }
  intros i w1 _ [Hlo Hhi]. apply runs_ret.
  unfold index. destruct (Z.ltb_spec i 0) as [Hneg | _]; [lia|].
  split.
  - intros ->. destruct (Z.to_nat i); reflexivity.
  - intros Hne.
    assert (Hlen : (Z.to_nat i < List.length (chars this))%nat).
    { destruct (chars this) as [|c cs]; [contradiction|].
      simpl List.length in *. lia. }
    destruct (nth_error (chars this) (Z.to_nat i)) as [ch|] eqn:Hnth.
    + exists ch. split; [reflexivity | eapply nth_error_In, Hnth].
    + apply nth_error_None in Hnth. lia.
Qed.

Lemma loadFonts_runs files w :
  Forall (fun file => fontStore w file <> None) files ->
  runs (mapM opentype_load files) w
       (fun fs => List.length fs = List.length files).
Proof.
  intros Hall.
  eapply runs_weaken.
  - apply (runs_mapM opentype_load (fun _ _ => True)).
    intros file w' Hin (_ & _ & Hstore).
    rewrite Forall_forall in Hall. specialize (Hall file Hin).
    unfold opentype_load.
    destruct (fontStore w file) as [f|] eqn:Hf; [|contradiction].
    exists f, w'. rewrite Hstore, Hf.
    split; [reflexivity | split; [apply sameEnv_refl | exact I]].
  - intros fs H. symmetry. eapply Forall2_length, H.
Qed.

Lemma pickFont_runs loadedFonts w :
  fair w -> loadedFonts <> [] ->
  runs (pickFont loadedFonts) w (fun font => font <> None).
Proof.
  intros Hfair Hne. unfold pickFont.
  eapply runs_bind.
  { apply (randomInt_range 0 (Z.of_nat (List.length loadedFonts)));
      [exact Hfair | lia]. }
  intros i w1 _ [Hlo Hhi]. apply runs_ret.
  unfold index. destruct (Z.ltb_spec i 0) as [Hneg | _]; [lia|].
  apply nth_error_Some.
  destruct loadedFonts as [|f fs]; [contradiction|].
  simpl List.length in *. lia.
Qed.

(** The straight layout returns as soon as a font is loaded, and also
    without any font when there is nothing to lay out. *)
Lemma straight_runs o loadedFonts text y w :
  loadedFonts <> [] \/ text = "" ->
  runs (straight o loadedFonts text y) w (fun _ => True).
Proof.
  intros [Hne | ->].
  - destruct loadedFonts as [|f fs]; [contradiction|].
    unfold straight. cbn [nth_error].
    eapply (runs_bind _ _ _ (fun _ => True)).
    { eapply runs_of_eq; [apply (mapM_pure _ (charToGlyph f)); reflexivity|].
      exact I. }
    intros glyphs w1 _ _.
    eapply (runs_bind _ _ _ (fun _ => True)).
    { eapply runs_of_eq; [|exact I].
      apply (foldM_pure _ (fun sum g => (sum + scaledAdvance o f g)%num)).
      reflexivity. }
    intros nw w2 _ _.
    eapply runs_bind; [|intros; apply runs_ret; exact I].
    apply (runs_foldM _ (fun _ => True)); [exact I|].
    intros [svg0 x] g w3 _ _ _. apply runs_ret. exact I.
  - eapply runs_of_eq; [reflexivity | exact I].
Qed.

Lemma messyLayout_runs o loadedFonts text y w :
  fair w ->
  loadedFonts <> [] \/ text = "" ->
  runs (messyLayout o loadedFonts text y) w (fun _ => True).
Proof.
  intros Hfair [Hne | ->].
  - unfold messyLayout.
    eapply runs_bind.
    { apply (runs_mapM _ (fun _ _ => True)). intros ch w1 _ He.
      eapply runs_bind;
        [apply pickFont_runs; [eapply fair_sameEnv; eassumption | exact Hne]|].
      intros [f|] w2 _ Hf; [|contradiction].
      apply runs_ret. exact I. }
    intros widths w1 He1 _.
    eapply runs_bind; [|intros; apply runs_ret; exact I].
    apply (runs_foldM _ (fun _ => True)); [exact I|].
    intros [svg0 x] ch w2 _ He2 _.
    eapply runs_bind.
    { apply pickFont_runs; [|exact Hne].
      eapply fair_sameEnv; [exact Hfair|].
      eapply sameEnv_trans; eassumption. }
    intros [f|] w3 _ Hf; [|contradiction].
    cbn [deref].
    eapply (runs_bind _ _ _ (fun _ => True)); [apply runs_ret; exact I|].
    intros f' w4 _ _.
    eapply runs_bind; [apply randomInt_runs|]. intros rot w5 _ _.
    apply runs_ret. exact I.
  - eapply runs_of_eq; [reflexivity | exact I].
Qed.

Lemma appended_length c : (1 <= String.length (appended c))%nat.
Proof. destruct c; simpl; lia. Qed.

Lemma generateKey_loop_runs n : forall key w,
  runs (generateKey_loop n key) w
       (fun k => (String.length key + n <= String.length k)%nat).
Proof.
  induction n as [|n IH]; intros key w; cbn [generateKey_loop].
  - apply runs_ret. lia.
  - eapply runs_bind; [apply randomInt_runs|]. intros i w1 _ _.
    eapply runs_weaken; [apply IH|].
    intros k Hk. rewrite length_append in Hk.
    pose proof (appended_length
                  (index (list_ascii_of_string keyChars) i)).
    lia.
Qed.

(** A key has at least as many characters as were asked for. *)
Lemma generateKey_runs n w :
  runs (generateKey n) w (fun k => (n <= String.length k)%nat).
Proof.
  unfold generateKey.
  eapply (runs_bind _ _ _ (fun _ => True));
    [eapply (runs_of_eq Date_now); [reflexivity | exact I]|].
  intros now w1 _ _.
  eapply runs_bind; [apply generateKey_loop_runs|]. intros key w2 _ Hk.
  apply runs_ret. rewrite length_append. simpl in Hk. lia.
Qed.

(** [generate] returns when the random source is fair and the fonts load,
    provided there is a font, or nothing to draw. Its text joins [size]
    picks, its key has at least 16 characters, and it leaves both in the
    instance, whatever was there before. *)
Lemma generate_runs this w :
  fair w -> fontsLoad this w ->
  fontFiles (options this) <> [] \/ chars this = [] ->
  runs (generate this) w
       (fun r =>
          (exists picks,
              List.length picks = size (options this) /\
              Forall (picked this) picks /\
              text (fst r) = join picks) /\
          (16 <= String.length (key (fst r)))%nat /\
          List.length (noiseSVG (data (fst r))) = noise (options this) /\
          snd r = {| defaults := defaults this;
                     options := options this;
                     chars := chars this;
                     captchaKey := Some (key (fst r));
                     captchaText := Some (text (fst r)) |}).
Proof.
  intros Hfair Hload Hfont. unfold generate. cbv zeta.
  eapply runs_bind.
  { apply (runs_replicateM _ (picked this)). intros w' He.
    apply pickChar_runs. eapply fair_sameEnv; eassumption. }
  intros picks w1 He1 [Hlen Hpicks].
  eapply runs_bind.
  { apply loadFonts_runs. destruct He1 as (_ & _ & Hstore).
    rewrite Hstore. exact Hload. }
  intros loadedFonts w2 He2 Hfonts.
  assert (He12 : sameEnv w w2) by (eapply sameEnv_trans; eassumption).
  assert (Hlayout : loadedFonts <> [] \/ join picks = "").
  { destruct Hfont as [Hne | Hempty].
    - left. intros ->. apply Hne.
      destruct (fontFiles (options this)); [reflexivity | discriminate Hfonts].
    - right. apply join_undefined.
      eapply Forall_impl; [|exact Hpicks]. intros c [Hc _]. exact (Hc Hempty). }
  eapply (runs_bind _ _ _ (fun _ => True)).
  { destruct (negb (messy (options this))).
    - apply straight_runs, Hlayout.
    - apply messyLayout_runs;
        [eapply fair_sameEnv; eassumption | exact Hlayout]. }
  intros lay w3 He3 _.
  eapply runs_bind; [apply generateWavyNoise_runs|].
  intros ps w4 He4 [Hps _].
  eapply runs_bind; [apply generateKey_runs|].
  intros k w5 He5 Hk.
  apply runs_ret. cbn [fst snd key text data noiseSVG].
  split; [exists picks; auto|]. split; [exact Hk|].
  split; [exact Hps | reflexivity].
Qed.

(** *** The answer text *)

(** C1. When the pool of the instance (the preset less [ignoreChars]) is
    not empty, [generate] returns a text of exactly [size] characters, each
    of them a member of the pool, hence a character of the preset that does
    not occur in [ignoreChars]. *)
Theorem generate_answerText this w :
  wellFormed this ->
  pool (options this) <> [] ->
  fair w -> fontsLoad this w -> fontFiles (options this) <> [] ->
  runs (generate this) w
       (fun r =>
          String.length (text (fst r)) = size (options this) /\
          Forall (fun ch =>
                    In ch (pool (options this)) /\
                    In ch (list_ascii_of_string
                             (buildCharPreset (presetType (options this)))) /\
                    ~ In ch (list_ascii_of_string (ignoreChars (options this))))
                 (list_ascii_of_string (text (fst r)))).
Proof.
  intros Hwf Hne Hfair Hload Hfont.
  eapply runs_weaken; [apply generate_runs; auto|].
  intros [c this'] ((picks & Hlen & Hpicks & Htext) & _). cbn [fst] in *.
  rewrite <- Hwf in Hne.
  assert (Hall : Forall (fun c => exists ch, c = Some ch /\ In ch (chars this))
                        picks).
  { eapply Forall_impl; [|exact Hpicks]. intros p [_ Hp]. exact (Hp Hne). }
  apply join_picked in Hall as [Hl Hin].
  rewrite Htext. split; [congruence|].
  eapply Forall_impl; [|exact Hin].
  intros ch Hch. rewrite Hwf in Hch. split; [exact Hch|].
  apply pool_spec in Hch as [Hpre Hign]. split; [exact Hpre|].
  intros Habs. apply includes_spec in Habs. congruence.
Qed.

(** [generate_answerText] at work on the concrete inputs. *)
Lemma generate_answerText_witness :
  exists this w,
    new noOverrides [] demoWorld = Ok this w /\
    runs (generate this) w
         (fun r => String.length (text (fst r)) = 6%nat).
Proof.
  destruct (new_runs noOverrides [] demoWorld)
    as (this & w & Hnew & Henv & (fc & nc & Hthis)).
  exists this, w. split; [exact Hnew|].
  eapply runs_weaken.
  - apply (generate_answerText this w).
    + subst this. reflexivity.
    + subst this. vm_compute. discriminate.
    + eapply fair_sameEnv; [apply demoWorld_fair | exact Henv].
    + subst this. destruct Henv as (_ & _ & Hstore).
      constructor; [|constructor]. rewrite Hstore. discriminate.
    + subst this. discriminate.
  - intros r [Hlen _]. subst this. exact Hlen.
Defined.

(** *** An empty pool *)

(** C3 as stated fails: with every character of the preset ignored, the
    constructor and [generate] both return, and the answer is the empty
    string. *)
Lemma empty_alphabet_generates :
  exists this w1 c this' w2,
    new allIgnored [] demoWorld = Ok this w1 /\
    chars this = [] /\
    generate this w1 = Ok (c, this') w2 /\
    text c = "" /\
    size (options this) = 6%nat.
Proof.
  eexists. eexists. eexists. eexists. eexists.
  split; [vm_compute; reflexivity|].
  split; [reflexivity|].
  split; [vm_compute; reflexivity|].
  split; reflexivity.
Qed.

(** C3, amended. No configuration is rejected: the constructor returns for
    every argument, and on an instance whose pool is empty [generate]
    returns a challenge whose answer is the empty string (every pick is
    [undefined]), which it leaves in the instance next to the fresh key. *)
Theorem empty_alphabet_not_rejected :
  (forall o fontsFamily w,
      runs (new o fontsFamily) w (fun this => wellFormed this)) /\
  (forall this w,
      chars this = [] -> fair w -> fontsLoad this w ->
      runs (generate this) w
           (fun r => text (fst r) = "" /\
                     captchaText (snd r) = Some "" /\
                     captchaKey (snd r) = Some (key (fst r)))).
Proof.
  split.
  - intros o fontsFamily w.
    eapply runs_weaken; [apply new_runs|].
    intros this (fc & nc & ->). reflexivity.
  - intros this w Hempty Hfair Hload.
    eapply runs_weaken; [apply generate_runs; auto|].
    intros [c this'] ((picks & _ & Hpicks & Htext) & _ & _ & Hthis).
    cbn [fst snd] in *.
    assert (Ht : text c = "").
    { rewrite Htext. apply join_undefined.
      eapply Forall_impl; [|exact Hpicks]. intros p [Hp _]. exact (Hp Hempty). }
    subst this'. cbn [captchaText captchaKey]. rewrite Ht. auto.
Qed.

(** [empty_alphabet_not_rejected] at work on the concrete inputs. *)
Lemma empty_alphabet_not_rejected_witness :
  exists this w,
    new allIgnored [] demoWorld = Ok this w /\
    runs (generate this) w (fun r => text (fst r) = "").
Proof.
  destruct empty_alphabet_not_rejected as [_ Hgen].
  destruct (new_runs allIgnored [] demoWorld)
    as (this & w & Hnew & Henv & (fc & nc & Hthis)).
  exists this, w. split; [exact Hnew|].
  eapply runs_weaken.
  - apply (Hgen this w).
    + subst this. reflexivity.
    + eapply fair_sameEnv; [apply demoWorld_fair | exact Henv].
    + subst this. destruct Henv as (_ & _ & Hstore).
      constructor; [|constructor]. rewrite Hstore. discriminate.
  - intros r [Ht _]. exact Ht.
Defined.

(** *** storeCaptcha *)

Lemma storeCaptcha_not_callable {S} this ttl v (s : S) :
  storeCaptcha this ttl (NotAFunction v) s
  = Thrown (JsError "setFn must be a function").
Proof. reflexivity. Qed.

Lemma storeCaptcha_nothing_generated {S} this ttl (f : setter S) s :
  captchaKey this = None \/ captchaText this = None
  \/ captchaKey this = Some "" \/ captchaText this = Some "" ->
  storeCaptcha this ttl (Function f) s
  = Thrown (JsError "No captcha generated yet.").
Proof.
  unfold storeCaptcha.
  intros [H | [H | [H | H]]]; rewrite H;
    destruct (captchaKey this) as [k|], (captchaText this) as [t|];
    cbn [falsy orb]; try reflexivity;
    try (inversion H; subst; cbn; rewrite ?orb_true_r; reflexivity).
Qed.

Lemma storeCaptcha_calls {S} this ttl (f : setter S) s k t :
  captchaKey this = Some k -> captchaText this = Some t ->
  k <> "" -> t <> "" ->
  storeCaptcha this ttl (Function f) s
  = awaited (f ("captcha:" ++ k) t ttl s).
Proof.
  intros Hk Ht Hkne Htne. unfold storeCaptcha. rewrite Hk, Ht.
  cbn [falsy].
  apply String.eqb_neq in Hkne, Htne. rewrite Hkne, Htne. reflexivity.
Qed.

Lemma nonempty_of_length (s : string) n :
  (n <= String.length s)%nat -> (0 < n)%nat -> s <> "".
Proof. intros Hl Hn ->. simpl in Hl. lia. Qed.

(** C9 as stated fails: after a [generate] that produced the empty answer
    (here because every character of the preset is ignored), [storeCaptcha]
    with a callable [setFn] throws instead of calling it. *)
Lemma storeCaptcha_rejects_empty_answer :
  exists this w1 c this' w2,
    new allIgnored [] demoWorld = Ok this w1 /\
    generate this w1 = Ok (c, this') w2 /\
    captchaText this' = Some "" /\
    storeCaptcha this' 60 (Function memorySet) []
    = Thrown (JsError "No captcha generated yet.").
Proof.
  eexists. eexists. eexists. eexists. eexists.
  split; [vm_compute; reflexivity|].
  split; [vm_compute; reflexivity|].
  split; reflexivity.
Qed.

(** C9, amended. [storeCaptcha] throws when [setFn] is not a function, when
    the instance has generated nothing yet (as is the case right after
    construction), and when the key or the answer it holds is the empty
    string. Otherwise, and so after every [generate] with [size >= 1] on a
    non-empty pool, it calls [setFn] once, with ["captcha:"] followed by
    the key, the answer and [ttl], and ends as that call does. *)
Theorem storeCaptcha_spec :
  (forall S this ttl v (s : S),
      storeCaptcha this ttl (NotAFunction v) s
      = Thrown (JsError "setFn must be a function")) /\
  (forall S this ttl (f : setter S) s,
      captchaKey this = None \/ captchaText this = None
      \/ captchaKey this = Some "" \/ captchaText this = Some "" ->
      storeCaptcha this ttl (Function f) s
      = Thrown (JsError "No captcha generated yet.")) /\
  (forall o fontsFamily w,
      runs (new o fontsFamily) w
           (fun this => forall S ttl (f : setter S) s,
                storeCaptcha this ttl (Function f) s
                = Thrown (JsError "No captcha generated yet."))) /\
  (forall this w,
      chars this <> [] -> (1 <= size (options this))%nat ->
      fair w -> fontsLoad this w -> fontFiles (options this) <> [] ->
      runs (generate this) w
           (fun r => forall S ttl (f : setter S) s,
                storeCaptcha (snd r) ttl (Function f) s
                = awaited (f ("captcha:" ++ key (fst r))
                             (text (fst r)) ttl s))).
Proof.
  split; [intros; apply storeCaptcha_not_callable|].
  split; [intros; apply storeCaptcha_nothing_generated; assumption|].
  split.
  - intros o fontsFamily w.
    eapply runs_weaken; [apply new_runs|].
    intros this (fc & nc & ->) S ttl f s.
    apply storeCaptcha_nothing_generated. left. reflexivity.
  - intros this w Hne Hsize Hfair Hload Hfont.
    eapply runs_weaken; [apply generate_runs; auto|].
    intros [c this'] ((picks & Hlen & Hpicks & Htext) & Hkey & _ & Hthis)
           S ttl f s.
    cbn [fst snd] in *. subst this'.
    apply storeCaptcha_calls; try reflexivity.
    + eapply nonempty_of_length; [exact Hkey | lia].
    + assert (Hall : Forall (fun c => exists ch, c = Some ch
                                                 /\ In ch (chars this)) picks).
      { eapply Forall_impl; [|exact Hpicks]. intros p [_ Hp]. exact (Hp Hne). }
      apply join_picked in Hall as [Hl _].
      eapply (nonempty_of_length _ (size (options this))); [|lia].
      rewrite Htext, Hl, Hlen. lia.
Qed.

(** [storeCaptcha_spec] at work on the concrete inputs. *)
Lemma storeCaptcha_spec_witness :
  exists this w,
    new noOverrides [] demoWorld = Ok this w /\
    runs (generate this) w
         (fun r => storeCaptcha (snd r) 60 (Function memorySet) []
                   = Returned [("captcha:" ++ key (fst r), text (fst r))]).
Proof.
  destruct storeCaptcha_spec as (_ & _ & _ & Hgen).
  destruct (new_runs noOverrides [] demoWorld)
    as (this & w & Hnew & Henv & (fc & nc & Hthis)).
  exists this, w. split; [exact Hnew|].
  eapply runs_weaken.
  - apply (Hgen this w).
    + subst this. vm_compute. discriminate.
    + subst this. cbn. lia.
    + eapply fair_sameEnv; [apply demoWorld_fair | exact Henv].
    + subst this. destruct Henv as (_ & _ & Hstore).
      constructor; [|constructor]. rewrite Hstore. discriminate.
    + subst this. discriminate.
  - intros r Hr. rewrite Hr. reflexivity.
Defined.

(** *** The last key and answer *)

(** With a fetch that finds the non-empty string [stored], the input is
    compared with [stored]. *)
Lemma verifyCaptcha_fetched this userInput k (f : getter) stored :
  f ("captcha:" ++ k) = Fulfilled (VString stored) -> stored <> "" ->
  verifyCaptcha this userInput k (Function f)
  = Returned (VBool (stored =? userInput)).
Proof.
  intros Hf Hne. unfold verifyCaptcha. rewrite Hf.
  unfold jsAnd. cbn [truthy strictEq].
  apply String.eqb_neq in Hne. rewrite Hne. reflexivity.
Qed.

(** C6 as stated fails: [verifyCaptcha] does not compare the input with the
    answer held by the instance. On the instance that has just generated
    an answer, with a fetch that finds ["WRONG"], the answer of the
    instance is refused and ["WRONG"] is accepted. *)
Lemma verifyCaptcha_ignores_last_answer :
  exists this w1 c this' w2,
    new noOverrides [] demoWorld = Ok this w1 /\
    generate this w1 = Ok (c, this') w2 /\
    captchaText this' = Some (text c) /\
    captchaKey this' = Some (key c) /\
    verifyCaptcha this' (text c) (key c) (Function staleFetch)
    = Returned (VBool false) /\
    verifyCaptcha this' "WRONG" (key c) (Function staleFetch)
    = Returned (VBool true).
Proof.
  eexists. eexists. eexists. eexists. eexists.
  split; [vm_compute; reflexivity|].
  split; [vm_compute; reflexivity|].
  repeat split.
Qed.

(** C6, amended. Each [generate] leaves the key and the answer it returns
    in the instance, whatever it held before; [storeCaptcha] passes them to
    [setFn]; [verifyCaptcha] does not read the instance: it compares the
    input with what the fetch finds, which is the answer of the instance
    when [storeCaptcha] has put it in the store that the fetch reads. *)
Theorem last_challenge_lifecycle :
  (forall this w,
      fair w -> fontsLoad this w ->
      fontFiles (options this) <> [] \/ chars this = [] ->
      runs (generate this) w
           (fun r => captchaKey (snd r) = Some (key (fst r)) /\
                     captchaText (snd r) = Some (text (fst r)))) /\
  (forall S this ttl (f : setter S) s k t,
      captchaKey this = Some k -> captchaText this = Some t ->
      k <> "" -> t <> "" ->
      storeCaptcha this ttl (Function f) s
      = awaited (f ("captcha:" ++ k) t ttl s)) /\
  (forall this1 this2 userInput k getFn,
      verifyCaptcha this1 userInput k getFn
      = verifyCaptcha this2 userInput k getFn) /\
  (forall this userInput k (f : getter) stored,
      f ("captcha:" ++ k) = Fulfilled (VString stored) -> stored <> "" ->
      verifyCaptcha this userInput k (Function f)
      = Returned (VBool (stored =? userInput))) /\
  (forall this ttl m k t,
      captchaKey this = Some k -> captchaText this = Some t ->
      k <> "" -> t <> "" ->
      exists m',
        storeCaptcha this ttl (Function memorySet) m = Returned m' /\
        forall later,
          verifyCaptcha later t k (Function (memoryGet m'))
          = Returned (VBool true)).
Proof.
  split.
  { intros this w Hfair Hload Hfont.
    eapply runs_weaken; [apply generate_runs; auto|].
    intros [c this'] (_ & _ & _ & Hthis). cbn [fst snd] in *.
    subst this'. split; reflexivity. }
  split; [intros; apply storeCaptcha_calls; assumption|].
  split; [reflexivity|].
  split; [intros; apply verifyCaptcha_fetched; assumption|].
  intros this ttl m k t Hk Ht Hkne Htne.
  exists (("captcha:" ++ k, t) :: m). split.
  - rewrite (storeCaptcha_calls this ttl memorySet m k t) by assumption.
    reflexivity.
  - intros later.
    rewrite (verifyCaptcha_fetched later t k _ t).
    + rewrite String.eqb_refl. reflexivity.
    + unfold memoryGet. cbn [memoryLookup]. rewrite String.eqb_refl.
      unfold jsOr. cbn [truthy].
      apply String.eqb_neq in Htne. rewrite Htne. reflexivity.
    + exact Htne.
Qed.

(** [last_challenge_lifecycle] at work on the concrete inputs. *)
Lemma last_challenge_lifecycle_witness :
  exists m',
    storeCaptcha servedInstance 60 (Function memorySet) [] = Returned m' /\
    verifyCaptcha servedInstance "Zx81captch" "AbCdEfGhIjKlMnOployw3v28"
                  (Function (memoryGet m'))
    = Returned (VBool true).
Proof.
  destruct last_challenge_lifecycle as (_ & _ & _ & _ & Hround).
  destruct (Hround servedInstance 60%Q [] "AbCdEfGhIjKlMnOployw3v28"
                   "Zx81captch")
    as (m' & Hstore & Hverify); try reflexivity; try discriminate.
  exists m'. split; [exact Hstore | apply Hverify].
Defined.

(* ------------------------------------------------------------------ *)
(** ** Further properties of the random utilities and of the key *)

(** The value under the [Math.floor] of [randomInt] lies between the
    bounds. *)
Lemma randomInt_bounds (lo hi : Q) w :
  fair w -> (lo <= hi)%Q ->
  runs (randomInt lo hi) w
       (fun z => (Qfloor lo <= z)%Z /\
                 ((lo < hi)%Q -> (inject_Z z < hi)%Q) /\
                 ((lo == hi)%Q -> z = Qfloor lo)).
Proof.
  intros Hf Hle. unfold randomInt.
  eapply runs_bind; [apply Math_random_runs|].
  intros u w' _ ->. apply runs_ret.
  destruct (Hf (drawn w)) as [H0 H1].
  set (u := random w (drawn w)) in *.
  assert (Hd : (0 <= hi - lo)%Q).
  { unfold Qminus. rewrite <- Qle_minus_iff. exact Hle. }
  split; [|split].
  - apply Qfloor_resp_le.
    rewrite <- (Qplus_0_l lo) at 1.
    apply Qplus_le_l. apply Qmult_le_0_compat; assumption.
  - intros Hlt.
    assert (Hd' : (0 < hi - lo)%Q).
    { unfold Qminus. rewrite <- Qlt_minus_iff. exact Hlt. }
    eapply Qle_lt_trans; [apply Qfloor_le|].
    assert (Hm : (u * (hi - lo) < 1 * (hi - lo))%Q).
    { apply Qmult_lt_compat_r; assumption. }
    apply (Qplus_lt_l _ _ lo) in Hm.
    eapply Qlt_le_trans; [exact Hm|].
    apply Qle_lteq. right. ring.
  - intros Heq. apply Qfloor_comp. rewrite Heq. ring.
Qed.

(** X1. For integer bounds [lo <= hi] (of magnitude at most 2^31, so that
    their difference is a whole number that a double holds exactly)
    [randomInt(lo, hi)] returns an integer between the bounds, both
    included. When the lower bound is [0] and the upper bound is positive
    the result is below the upper bound. (For other lower bounds the
    source adds [min] in a second rounded step, and the model, which adds
    exactly, says nothing more than the closed bound.) *)
Theorem randomInt_within (lo hi : Z) (top : Q) w :
  fair w ->
  ((lo <= hi)%Z -> (Z.abs lo <= 2 ^ 31)%Z -> (Z.abs hi <= 2 ^ 31)%Z ->
   runs (randomInt (inject_Z lo) (inject_Z hi)) w
        (fun z => (lo <= z <= hi)%Z)) /\
  ((0 < top)%Q ->
   runs (randomInt 0 top) w
        (fun z => (0 <= z)%Z /\ (inject_Z z < top)%Q)).
Proof.
  intros Hf. split.
  - intros Hle _ _.
    eapply runs_weaken;
      [apply (randomInt_bounds (inject_Z lo) (inject_Z hi));
       [assumption | rewrite <- Zle_Qle; exact Hle]|].
    intros z (H1 & H2 & H3). rewrite Qfloor_Z in H1, H3.
    split; [exact H1|].
    destruct (Z.eq_dec lo hi) as [->|Hne].
    + rewrite H3 by reflexivity. lia.
    + apply Z.lt_le_incl. rewrite Zlt_Qlt. apply H2.
      rewrite <- Zlt_Qlt. lia.
  - intros Hpos.
    eapply runs_weaken;
      [apply (randomInt_bounds 0 top); [assumption | apply Qlt_le_weak, Hpos]|].
    intros z (H1 & H2 & _). split; [exact H1 | apply H2, Hpos].
Qed.

(** [randomInt_within] at work on the concrete inputs. *)
Lemma randomInt_within_witness :
  runs (randomInt (inject_Z 2) (inject_Z 4)) demoWorld
       (fun z => (2 <= z <= 4)%Z) /\
  runs (randomInt 0 (75 # 2)) demoWorld
       (fun z => (0 <= z)%Z /\ (inject_Z z < 75 # 2)%Q).
Proof.
  destruct (randomInt_within 2 4 (75 # 2) demoWorld demoWorld_fair)
    as [Hclosed Hopen].
  split.
  - apply Hclosed; [lia | discriminate | discriminate].
  - apply Hopen. reflexivity.
Defined.

(** X2. [randomColor] returns ["rgb(r,g,b)"] with three integer channels
    in [[0, 255)]: a channel is never 255. *)
Theorem randomColor_channels w :
  fair w ->
  runs randomColor w
       (fun s => exists r g b,
            s = "rgb(" ++ decimal r ++ "," ++ decimal g ++ ","
                       ++ decimal b ++ ")" /\
            (0 <= r < 255)%Z /\ (0 <= g < 255)%Z /\ (0 <= b < 255)%Z).
Proof.
  intros Hf. unfold randomColor.
  eapply runs_bind; [apply (randomInt_range 0 255); [exact Hf | lia]|].
  intros r w1 He1 [Hr0 Hr1].
  assert (Hf1 : fair w1) by (eapply fair_sameEnv; eassumption).
  eapply runs_bind; [apply (randomInt_range 0 255); [exact Hf1 | lia]|].
  intros g w2 He2 [Hg0 Hg1].
  assert (Hf2 : fair w2) by (eapply fair_sameEnv; eassumption).
  eapply runs_bind; [apply (randomInt_range 0 255); [exact Hf2 | lia]|].
  intros b w3 He3 [Hb0 Hb1].
  apply runs_ret. exists r, g, b.
  split; [reflexivity|]. lia.
Qed.

(** [randomColor_channels] at work on the concrete inputs. *)
Lemma randomColor_channels_witness :
  runs randomColor demoWorld (fun s => s = "rgb(0,25,51)").
Proof.
  destruct (randomColor_channels demoWorld demoWorld_fair)
    as (s & w' & Hrun & Henv & _).
  exists s, w'. split; [exact Hrun|]. split; [exact Henv|].
  vm_compute in Hrun. inversion Hrun. reflexivity.
Defined.

Lemma list_ascii_of_string_append (a b : string) :
  list_ascii_of_string (a ++ b)
  = (list_ascii_of_string a ++ list_ascii_of_string b)%list.
Proof.
  induction a as [|c a IH]; simpl; [reflexivity | rewrite IH; reflexivity].
Qed.

Lemma append_associative (a b c : string) : (a ++ b) ++ c = a ++ (b ++ c).
Proof.
  induction a as [|x a IH]; simpl; [reflexivity | rewrite IH; reflexivity].
Qed.

(** The loop of [generateKey] appends [n] characters of [keyChars]. *)
Lemma generateKey_loop_shape n : forall key w,
  fair w ->
  runs (generateKey_loop n key) w
       (fun k => exists suffix,
            k = key ++ suffix /\ String.length suffix = n /\
            Forall (fun c => In c (list_ascii_of_string keyChars))
                   (list_ascii_of_string suffix)).
Proof.
  induction n as [|n IH]; intros key w Hf; cbn [generateKey_loop].
  - apply runs_ret. exists "". split; [|split; [reflexivity | constructor]].
    clear. induction key as [|c key IH]; simpl; congruence.
  - eapply runs_bind.
    { apply (randomInt_range 0 (Z.of_nat (String.length keyChars)));
        [exact Hf | lia]. }
    intros i w1 He [Hlo Hhi].
    assert (Hi : (i < 62)%Z) by (apply Hhi; reflexivity).
    unfold index. destruct (Z.ltb_spec i 0) as [Hneg | _]; [lia|].
    destruct (nth_error (list_ascii_of_string keyChars) (Z.to_nat i))
      as [ch|] eqn:Hnth.
    + eapply runs_weaken;
        [apply IH; eapply fair_sameEnv; eassumption|].
      intros k (suffix & -> & Hlen & Hall).
      exists (String ch suffix). cbn [appended].
      split; [rewrite append_associative; reflexivity|].
      split; [simpl; congruence|].
      change (list_ascii_of_string (String ch suffix))
        with (ch :: list_ascii_of_string suffix).
      constructor; [eapply nth_error_In, Hnth | exact Hall].
    + apply nth_error_None in Hnth.
      change (List.length (list_ascii_of_string keyChars)) with 62%nat in Hnth.
      lia.
Qed.

(** X3. [generateKey(n)] returns [n] characters drawn from the 62 letters
    and digits of its table, followed by the time of the call written in
    base 36; the text ["undefined"] never enters a key. *)
Theorem generateKey_shape n w :
  fair w ->
  runs (generateKey n) w
       (fun k => exists prefix,
            k = prefix ++ toString36 (clock w) /\
            String.length prefix = n /\
            Forall (fun c => In c (list_ascii_of_string keyChars))
                   (list_ascii_of_string prefix)).
Proof.
  intros Hf. unfold generateKey.
  eapply (runs_bind _ _ _ (fun now => now = clock w)).
  { eapply (runs_of_eq Date_now); reflexivity. }
  intros now w1 He ->.
  eapply runs_bind;
    [apply generateKey_loop_shape; eapply fair_sameEnv; eassumption|].
  intros key w2 _ (suffix & -> & Hlen & Hall).
  apply runs_ret. exists suffix. auto.
Qed.

(** [generateKey_shape] at work on the concrete inputs. *)
Lemma generateKey_shape_witness :
  runs (generateKey 16) demoWorld
       (fun k => k = "AGMSYflrx3AGMSYf" ++ "loyw3v28").
Proof.
  destruct (generateKey_shape 16 demoWorld demoWorld_fair)
    as (k & w' & Hrun & Henv & _).
  exists k, w'. split; [exact Hrun|]. split; [exact Henv|].
  vm_compute in Hrun. inversion Hrun. reflexivity.
Defined.

(* ------------------------------------------------------------------ *)
(** ** Further properties of the character pool *)

Lemma NoDup_by_nodup (l : list ascii) : nodup ascii_dec l = l -> NoDup l.
Proof. intros <-. apply NoDup_nodup. Qed.

(** Every preset lists each of its characters once. *)
Lemma buildCharPreset_NoDup type :
  NoDup (list_ascii_of_string (buildCharPreset type)).
Proof.
  assert (Hall : NoDup (list_ascii_of_string (upper ++ lower ++ numbers)))
    by (apply NoDup_by_nodup; vm_compute; reflexivity).
  destruct type as [| | b | n | t]; try exact Hall.
  unfold buildCharPreset.
  repeat match goal with
         | |- context [if ?c then _ else _] => destruct c
         end;
    try exact Hall; apply NoDup_by_nodup; vm_compute; reflexivity.
Qed.

Lemma filter_all {A} (f : A -> bool) (l : list A) :
  (forall x, f x = true) -> filter f l = l.
Proof.
  intros Hf. induction l as [|x l IH]; simpl; [reflexivity|].
  rewrite Hf, IH. reflexivity.
Qed.

(** X4. The pool that the constructor computes holds exactly the
    characters of the preset that do not occur in [ignoreChars], each of
    them once; with nothing to ignore it is the whole preset, in order. *)
Theorem pool_distinct o :
  NoDup (pool o) /\
  (forall ch,
      In ch (pool o) <->
      In ch (list_ascii_of_string (buildCharPreset (presetType o))) /\
      ~ In ch (list_ascii_of_string (ignoreChars o))) /\
  (ignoreChars o = "" ->
   pool o = list_ascii_of_string (buildCharPreset (presetType o))).
Proof.
  split; [|split].
  - unfold pool. apply NoDup_filter, buildCharPreset_NoDup.
  - intros ch. rewrite pool_spec. split; intros [Hin Hign]; split;
      try exact Hin.
    + intros Habs. apply includes_spec in Habs. congruence.
    + destruct (includes (ignoreChars o) ch) eqn:Hinc; [|reflexivity].
      apply includes_spec in Hinc. contradiction.
  - intros Hnone. unfold pool. rewrite Hnone.
    apply filter_all. reflexivity.
Qed.

(** [pool_distinct] at work on the concrete inputs. *)
Lemma pool_distinct_witness :
  pool demoOptions
  = list_ascii_of_string
      "ABCDEFGHIJKLMNOPQRSTUVWXYZabcdefghijklmnopqrstuvwxyz0123456789".
Proof.
  destruct (pool_distinct demoOptions) as (_ & _ & Hwhole).
  rewrite Hwhole; reflexivity.
Defined.

(* ------------------------------------------------------------------ *)
(** ** Further properties of the layouts *)

(** A returning loop, with an invariant that sees the elements already
    processed. *)
Lemma foldM_Ok_prefix {A S} (body : S -> A -> M S)
      (inv : list A -> S -> Prop) :
  (forall done s x w s' w',
      inv done s -> body s x w = Ok s' w' -> inv (done ++ [x])%list s') ->
  forall xs done s w s' w',
    inv done s -> foldM body s xs w = Ok s' w' -> inv (done ++ xs)%list s'.
Proof.
  intros Hbody. induction xs as [|x xs IH]; intros done s w s' w' Hs H;
    simpl in H.
  - apply ret_Ok in H as [-> _]. rewrite app_nil_r. exact Hs.
  - apply bind_Ok in H as (s1 & w1 & H1 & H).
    replace (done ++ x :: xs)%list with ((done ++ [x]) ++ xs)%list
      by (rewrite <- app_assoc; reflexivity).
    eapply IH; [eapply Hbody; eassumption | exact H].
Qed.

Lemma Forall2_map_l {A B C} (g : A -> B) (R : B -> C -> Prop) xs ys :
  Forall2 R (map g xs) ys -> Forall2 (fun x y => R (g x) y) xs ys.
Proof.
  revert ys. induction xs as [|x xs IH]; intros ys H; inversion H; subst;
    constructor; auto.
Qed.

(** X5. Every returning layout emits one path per character of the text,
    in order, filled with the text colour and placed on the baseline. In
    straight mode the glyph is that of the first font and there is no
    rotation; in messy mode the glyph is that of one of the loaded fonts,
    and the rotation turns around the middle of the glyph's scaled advance
    on the baseline. *)
Theorem one_path_per_character o loadedFonts text y w lay w' :
  (straight o loadedFonts text y w = Ok lay w' ->
   Forall2 (fun ch p =>
              exists f, nth_error loadedFonts 0 = Some f /\
                        ofGlyph (d p) = charToGlyph f ch /\
                        fill p = fontColour o /\
                        atY (d p) = Fin y /\
                        transform p = None)
           (list_ascii_of_string text) (paths lay))
  /\
  (messyLayout o loadedFonts text y w = Ok lay w' ->
   Forall2 (fun ch p =>
              exists f r,
                In f loadedFonts /\
                ofGlyph (d p) = charToGlyph f ch /\
                fill p = fontColour o /\
                atY (d p) = Fin y /\
                transform p = Some r /\
                pivotY r = Fin y /\
                pivotX r
                = (atX (d p)
                   + scaledAdvance o f (ofGlyph (d p)) * scale lay / Fin 2)%num)
           (list_ascii_of_string text) (paths lay)).
Proof.
  split; intros H.
  - unfold straight in H.
    apply bind_Ok in H as (glyphs & w1 & Hg & H).
    apply bind_Ok in H as (nw & w2 & Hn & H).
    apply bind_Ok in H as (acc & w3 & Hacc & H).
    apply ret_Ok in H as [-> _]. cbn [paths].
    destruct (nth_error loadedFonts 0) as [f|] eqn:Hfont.
    + rewrite (mapM_pure _ (charToGlyph f)) in Hg by reflexivity.
      inversion Hg; subst glyphs w1; clear Hg.
      eapply Forall2_impl;
        [|apply (Forall2_map_l (charToGlyph f)
                   (fun g p => ofGlyph (d p) = g /\
                               fill p = fontColour o /\
                               atY (d p) = Fin y /\
                               transform p = None))].
      { intros ch p (H1 & H2 & H3 & H4). exists f. auto. }
      change (map (charToGlyph f) (list_ascii_of_string text))
        with ([] ++ map (charToGlyph f) (list_ascii_of_string text))%list.
      revert Hacc.
      apply (foldM_Ok_prefix _
               (fun done (acc : list textPath * num) =>
                  Forall2 (fun g p => ofGlyph (d p) = g /\
                                      fill p = fontColour o /\
                                      atY (d p) = Fin y /\
                                      transform p = None)
                          done (fst acc))).
      * intros done [svg0 x] g wa s' wb Hinv Hbody.
        apply ret_Ok in Hbody as [-> _]. cbn [fst] in *.
        apply Forall2_app; [exact Hinv|].
        constructor; [|constructor]. repeat split.
      * constructor.
    + destruct (list_ascii_of_string text) as [|c cs]; [|discriminate Hg].
      simpl in Hg. apply ret_Ok in Hg as [-> _].
      simpl in Hacc. apply ret_Ok in Hacc as [-> _]. constructor.
  - unfold messyLayout in H.
    apply bind_Ok in H as (widths & w1 & Hw & H).
    apply bind_Ok in H as (acc & w2 & Hacc & H).
    apply ret_Ok in H as [-> _]. cbn [paths scale].
    set (sc := messyScale o _) in *.
    change (list_ascii_of_string text)
      with ([] ++ list_ascii_of_string text)%list.
    revert Hacc.
    apply (foldM_Ok_prefix _
             (fun done (acc : list textPath * num) =>
                Forall2 (fun ch p =>
                           exists f r,
                             In f loadedFonts /\
                             ofGlyph (d p) = charToGlyph f ch /\
                             fill p = fontColour o /\
                             atY (d p) = Fin y /\
                             transform p = Some r /\
                             pivotY r = Fin y /\
                             pivotX r
                             = (atX (d p)
                                + scaledAdvance o f (ofGlyph (d p)) * sc
                                  / Fin 2)%num)
                        done (fst acc))).
    + intros done [svg0 x] ch wa s' wb Hinv Hbody.
      apply bind_Ok in Hbody as (font & wc & Hpick & Hbody).
      apply bind_Ok in Hbody as (f & wd & Hderef & Hbody).
      apply bind_Ok in Hbody as (rot & we & _ & Hbody).
      apply ret_Ok in Hbody as [-> _]. cbn [fst] in *.
      destruct font as [f'|]; [|discriminate Hderef].
      apply ret_Ok in Hderef as [-> _].
      unfold pickFont in Hpick.
      apply bind_Ok in Hpick as (i & wf & _ & Hpick).
      apply ret_Ok in Hpick as [Hidx _].
      unfold index in Hidx. destruct (i <? 0)%Z; [discriminate|].
      symmetry in Hidx. apply nth_error_In in Hidx.
      apply Forall2_app; [exact Hinv|].
      constructor; [|constructor].
      eexists f', _. repeat split. exact Hidx.
    + constructor.
Qed.

(** [one_path_per_character] at work on the concrete inputs. *)
Lemma one_path_per_character_witness :
  exists lay w',
    messyLayout demoOptions [demoFont] "Zx81" demoBaseline demoWorld
    = Ok lay w' /\
    List.length (paths lay) = 4%nat.
Proof.
  destruct (messyLayout demoOptions [demoFont] "Zx81" demoBaseline
                        demoWorld) as [lay w' | e] eqn:E;
    [|vm_compute in E; discriminate E].
  exists lay, w'. split; [reflexivity|].
  pose proof (proj2 (one_path_per_character demoOptions [demoFont] "Zx81"
                       demoBaseline demoWorld lay w') E) as Hall.
  apply Forall2_length in Hall. symmetry. exact Hall.
Defined.

(** X6. In messy mode, with a fair random source and at least one loaded
    font (or nothing to draw), the layout returns and every character is
    rotated by a whole number of degrees in [[-25, 25)]. *)
Theorem messy_rotation_range o loadedFonts text y w :
  fair w ->
  loadedFonts <> [] \/ text = "" ->
  runs (messyLayout o loadedFonts text y) w
       (fun lay =>
          Forall (fun p => exists r, transform p = Some r /\
                                     (-25 <= angle r < 25)%Z)
                 (paths lay)).
Proof.
  intros Hfair [Hne | ->].
  - unfold messyLayout.
    eapply runs_bind.
    { apply (runs_mapM _ (fun _ _ => True)). intros ch w1 _ He.
      eapply runs_bind;
        [apply pickFont_runs; [eapply fair_sameEnv; eassumption | exact Hne]|].
      intros [f|] w2 _ Hf; [|contradiction].
      apply runs_ret. exact I. }
    intros widths w1 He1 _.
    eapply runs_bind; [|intros acc w2 _ Hacc; apply runs_ret; exact Hacc].
    apply (runs_foldM _ (fun acc : list textPath * num =>
             Forall (fun p => exists r, transform p = Some r /\
                                        (-25 <= angle r < 25)%Z) (fst acc)));
      [constructor|].
    intros [svg0 x] ch w2 _ He2 Hinv.
    assert (Hf2 : fair w2).
    { eapply fair_sameEnv; [exact Hfair|].
      eapply sameEnv_trans; eassumption. }
    eapply runs_bind; [apply pickFont_runs; [exact Hf2 | exact Hne]|].
    intros [f|] w3 He3 Hf; [|contradiction].
    cbn [deref].
    eapply (runs_bind _ _ _ (fun _ => True)); [apply runs_ret; exact I|].
    intros f' w4 He4 _.
    eapply runs_bind.
    { apply (randomInt_range (-25) 25); [|lia].
      eapply fair_sameEnv; [exact Hf2|].
      eapply sameEnv_trans; eassumption. }
    intros rot w5 _ [Hlo Hhi].
    apply runs_ret. cbn [fst] in *.
    apply Forall_app. split; [exact Hinv|].
    constructor; [|constructor].
    eexists. split; [reflexivity|]. cbn [angle]. lia.
  - eapply runs_of_eq; [reflexivity|]. constructor.
Qed.

(** [messy_rotation_range] at work on the concrete inputs. *)
Lemma messy_rotation_range_witness :
  runs (messyLayout demoOptions [demoFont] "Zx81" demoBaseline) demoWorld
       (fun lay => map (fun p => option_map angle (transform p)) (paths lay)
                   = [Some 0; Some 10; Some 20; Some (-20)]%Z).
Proof.
  destruct (messy_rotation_range demoOptions [demoFont] "Zx81" demoBaseline
              demoWorld demoWorld_fair) as (lay & w' & Hrun & Henv & _).
  - left. discriminate.
  - exists lay, w'. split; [exact Hrun|]. split; [exact Henv|].
    vm_compute in Hrun. inversion Hrun. reflexivity.
Defined.

(* ------------------------------------------------------------------ *)
(** ** Further properties of the noise *)

Lemma randomInt_height h w :
  fair w -> (0 < h)%Q ->
  runs (randomInt 0 h) w (fun y => (0 <= y)%Z /\ (inject_Z y < h)%Q).
Proof.
  intros Hf Hh.
  eapply runs_weaken;
    [apply (randomInt_bounds 0 h w Hf); apply Qlt_le_weak, Hh|].
  intros y (H1 & H2 & _). split; [exact H1 | exact (H2 Hh)].
Qed.

Lemma noiseSegments_heights o n remaining : forall d prev w,
  fair w -> (0 < height o)%Q ->
  Forall (withinHeight (height o)) d ->
  runs (noiseSegments o n remaining d prev) w
       (Forall (withinHeight (height o))).
Proof.
  induction remaining as [|r IH]; intros d prev w Hf Hh Hd;
    cbn [noiseSegments].
  - apply runs_ret. exact Hd.
  - eapply runs_bind; [apply randomInt_height; assumption|].
    intros midY w1 He1 HmidY.
    assert (Hf1 : fair w1) by (eapply fair_sameEnv; eassumption).
    eapply runs_bind; [apply randomInt_height; assumption|].
    intros endY w2 He2 HendY.
    apply IH; [eapply fair_sameEnv; eassumption | exact Hh|].
    apply Forall_app. split; [exact Hd|].
    constructor; [split; assumption | constructor].
Qed.

(** X7. On a canvas of positive height, [generateWavyNoise(count)] returns
    exactly [count] paths (none for [count = 0]), and every vertical
    coordinate in them, of the start point as of the control and end points
    of the curves, is an integer in [[0, height)]. *)
Theorem noise_within_height this count w :
  fair w -> (0 < height (options this))%Q ->
  runs (generateWavyNoise this count) w
       (fun ps => List.length ps = count /\
                  Forall (fun p => Forall (withinHeight (height (options this)))
                                          (noiseD p)) ps).
Proof.
  intros Hf Hh. unfold generateWavyNoise.
  apply runs_replicateM. intros w' He.
  assert (Hf' : fair w') by (eapply fair_sameEnv; eassumption).
  unfold noiseLine.
  eapply runs_bind; [apply randomInt_height; assumption|].
  intros startY w1 He1 HstartY.
  assert (Hf1 : fair w1) by (eapply fair_sameEnv; eassumption).
  eapply (runs_bind _ _ _ (fun _ => True)); [apply randomInt_runs|].
  intros n w2 He2 _.
  eapply runs_bind.
  { apply noiseSegments_heights;
      [eapply fair_sameEnv; eassumption | exact Hh|].
    constructor; [exact HstartY | constructor]. }
  intros d' w3 _ Hd'. apply runs_ret. exact Hd'.
Qed.

(** [noise_within_height] at work on the concrete inputs. *)
Lemma noise_within_height_witness :
  runs (generateWavyNoise servedInstance 3) demoWorld
       (fun ps => List.length ps = 3%nat).
Proof.
  eapply runs_weaken.
  - apply (noise_within_height servedInstance 3 demoWorld);
      [apply demoWorld_fair | reflexivity].
  - intros ps [Hlen _]. exact Hlen.
Defined.

(* ------------------------------------------------------------------ *)
(** ** Further properties of generate *)

Lemma length_list_ascii_of_string (s : string) :
  List.length (list_ascii_of_string s) = String.length s.
Proof.
  induction s as [|c s IH]; simpl; [reflexivity | rewrite IH; reflexivity].
Qed.

(** What holds of every returned value holds of the value of a run. *)
Lemma runs_and_Ok {A} (m : M A) w (p q : A -> Prop) :
  runs m w p ->
  (forall a w', m w = Ok a w' -> q a) ->
  runs m w (fun a => p a /\ q a).
Proof.
  intros (a & w' & Hm & He & Ha) Hq. exists a, w'.
  split; [exact Hm|]. split; [exact He|]. split; [exact Ha | eauto].
Qed.

(** A returning layout emits as many paths as the text has characters. *)
Lemma layout_paths_length o loadedFonts text y w lay w' :
  straight o loadedFonts text y w = Ok lay w'
  \/ messyLayout o loadedFonts text y w = Ok lay w' ->
  List.length (paths lay) = String.length text.
Proof.
  rewrite <- length_list_ascii_of_string.
  intros [H | H].
  - unfold straight in H.
    apply bind_Ok in H as (glyphs & w1 & Hg & H).
    apply bind_Ok in H as (nw & w2 & Hn & H).
    apply bind_Ok in H as (acc & w3 & Hacc & H).
    apply ret_Ok in H as [-> _]. cbn [paths].
    apply (mapM_Ok _ (fun _ _ => True)) in Hg; [|intros; exact I].
    apply Forall2_length in Hg. rewrite Hg.
    change glyphs with ([] ++ glyphs)%list.
    revert Hacc.
    apply (foldM_Ok_prefix _
             (fun done (acc : list textPath * num) =>
                List.length (fst acc) = List.length done)).
    + intros done [svg0 x] g wa s' wb Hinv Hbody.
      apply bind_Ok in Hbody as (f & wc & _ & Hbody).
      apply ret_Ok in Hbody as [-> _]. cbn [fst] in *.
      rewrite !length_app, Hinv. reflexivity.
    + reflexivity.
  - unfold messyLayout in H.
    apply bind_Ok in H as (widths & w1 & Hw & H).
    apply bind_Ok in H as (acc & w2 & Hacc & H).
    apply ret_Ok in H as [-> _]. cbn [paths].
    change (list_ascii_of_string text)
      with ([] ++ list_ascii_of_string text)%list.
    revert Hacc.
    apply (foldM_Ok_prefix _
             (fun done (acc : list textPath * num) =>
                List.length (fst acc) = List.length done)).
    + intros done [svg0 x] ch wa s' wb Hinv Hbody.
      apply bind_Ok in Hbody as (font & wc & _ & Hbody).
      apply bind_Ok in Hbody as (f & wd & _ & Hbody).
      apply bind_Ok in Hbody as (rot & we & _ & Hbody).
      apply ret_Ok in Hbody as [-> _]. cbn [fst] in *.
      rewrite !length_app, Hinv. reflexivity.
    + reflexivity.
Qed.

(** X10. [generate] emits one noise path per configured noise line and one
    character path per character of the answer it returns, so [size]
    character paths when the pool is not empty. *)
Theorem generate_path_counts this w :
  fair w -> fontsLoad this w ->
  fontFiles (options this) <> [] \/ chars this = [] ->
  runs (generate this) w
       (fun r =>
          List.length (noiseSVG (data (fst r))) = noise (options this) /\
          List.length (textSVG (data (fst r))) = String.length (text (fst r)) /\
          (chars this <> [] ->
           List.length (textSVG (data (fst r))) = size (options this))).
Proof.
  intros Hfair Hload Hfont. unfold generate. cbv zeta.
  eapply runs_bind.
  { apply (runs_replicateM _ (picked this)). intros w' He.
    apply pickChar_runs. eapply fair_sameEnv; eassumption. }
  intros picks w1 He1 [Hlen Hpicks].
  eapply runs_bind.
  { apply loadFonts_runs. destruct He1 as (_ & _ & Hstore).
    rewrite Hstore. exact Hload. }
  intros loadedFonts w2 He2 Hfonts.
  assert (He12 : sameEnv w w2) by (eapply sameEnv_trans; eassumption).
  assert (Hlayout : loadedFonts <> [] \/ join picks = "").
  { destruct Hfont as [Hne | Hempty].
    - left. intros ->. apply Hne.
      destruct (fontFiles (options this)); [reflexivity | discriminate Hfonts].
    - right. apply join_undefined.
      eapply Forall_impl; [|exact Hpicks]. intros c [Hc _]. exact (Hc Hempty). }
  eapply (runs_bind _ _ _
            (fun lay => True /\
                        List.length (paths lay) = String.length (join picks))).
  { apply runs_and_Ok.
    - destruct (negb (messy (options this))).
      + apply straight_runs, Hlayout.
      + apply messyLayout_runs;
          [eapply fair_sameEnv; eassumption | exact Hlayout].
    - intros lay w' Hrun. eapply layout_paths_length.
      destruct (negb (messy (options this))); [left | right]; exact Hrun. }
  intros lay w3 He3 [_ Hpaths].
  eapply runs_bind; [apply generateWavyNoise_runs|].
  intros ps w4 He4 [Hps _].
  eapply (runs_bind _ _ _ (fun _ => True));
    [eapply runs_weaken; [apply generateKey_runs | intros; exact I]|].
  intros k w5 He5 _.
  apply runs_ret.
  cbn [fst snd key text data noiseSVG textSVG].
  repeat split; try assumption.
  intros Hne. rewrite Hpaths, <- Hlen.
  assert (Hall : Forall (fun c => exists ch, c = Some ch /\ In ch (chars this))
                        picks).
  { eapply Forall_impl; [|exact Hpicks]. intros p [_ Hp]. exact (Hp Hne). }
  apply join_picked in Hall as [Hl _]. exact Hl.
Qed.

(** [generate_path_counts] at work on the concrete inputs. *)
Lemma generate_path_counts_witness :
  runs (generate servedInstance) demoWorld
       (fun r => List.length (textSVG (data (fst r))) = 10%nat /\
                 List.length (noiseSVG (data (fst r))) = 2%nat).
Proof.
  eapply runs_weaken.
  - apply (generate_path_counts servedInstance demoWorld demoWorld_fair).
    + constructor; [discriminate | constructor].
    + left. discriminate.
  - intros r (Hn & _ & Ht).
    split; [apply Ht; vm_compute; discriminate | exact Hn].
Defined.

(* ------------------------------------------------------------------ *)
(** ** generateCaptcha *)

(** X11. For options whose pool is not empty and whose font files exist
    and load, [generateCaptcha(options, fontsFamily)] returns a challenge
    whose answer has the requested [size] (6 when none is given), made of
    characters of that pool, under a key of at least 16 characters. *)
Theorem generateCaptcha_answer o fontsFamily w :
  fair w ->
  effectivePool o <> [] ->
  effectiveFonts o fontsFamily <> [] ->
  Forall (fun file => fontStore w file <> None)
         (effectiveFonts o fontsFamily) ->
  runs (generateCaptcha o fontsFamily) w
       (fun c =>
          String.length (text c) = orDefault (size' o) 6%nat /\
          Forall (fun ch => In ch (effectivePool o))
                 (list_ascii_of_string (text c)) /\
          (16 <= String.length (key c))%nat).
Proof.
  intros Hfair Hpool Hfonts Hload. unfold generateCaptcha.
  eapply runs_bind; [apply new_runs|].
  intros this w1 He1 (fc & nc & ->).
  eapply runs_bind.
  { apply generate_runs.
    - eapply fair_sameEnv; eassumption.
    - unfold fontsLoad. destruct He1 as (_ & _ & Hstore).
      rewrite Hstore. exact Hload.
    - left. exact Hfonts. }
  intros [c this'] w2 _ ((picks & Hlen & Hpicks & Htext) & Hkey & _).
  apply runs_ret. cbn [fst snd] in *.
  assert (Hall : Forall (fun c => exists ch, c = Some ch
                                             /\ In ch (effectivePool o)) picks).
  { eapply Forall_impl; [|exact Hpicks]. intros p [_ Hp]. exact (Hp Hpool). }
  apply join_picked in Hall as [Hl Hin].
  rewrite Htext. split; [rewrite Hl; exact Hlen|].
  split; [exact Hin | exact Hkey].
Qed.

(** [generateCaptcha_answer] at work on the concrete inputs. *)
Lemma generateCaptcha_answer_witness :
  runs (generateCaptcha thickNoise []) demoWorld
       (fun c => String.length (text c) = 6%nat).
Proof.
  eapply runs_weaken.
  - apply (generateCaptcha_answer thickNoise [] demoWorld demoWorld_fair).
    + vm_compute. discriminate.
    + discriminate.
    + constructor; [discriminate | constructor].
  - intros c (Hlen & _). exact Hlen.
Defined.

(* ------------------------------------------------------------------ *)
(** ** How generate fails *)

Lemma pickChar_total this w : runs (pickChar this) w (fun _ => True).
Proof.
  unfold pickChar. eapply (runs_bind _ _ _ (fun _ => True));
    [apply randomInt_runs|].
  intros. apply runs_ret. exact I.
Qed.

Lemma loadFonts_fails ok file rest : forall w,
  Forall (fun f => fontStore w f <> None) ok ->
  fontStore w file = None ->
  mapM opentype_load (ok ++ file :: rest)%list w = Throw (LoadFailure file).
Proof.
  induction ok as [|f ok IH]; intros w Hok Hfile.
  - simpl. unfold bind, opentype_load. rewrite Hfile. reflexivity.
  - inversion Hok as [|f' ok' Hf Hok']; subst.
    simpl. unfold bind at 1. unfold opentype_load at 1.
    destruct (fontStore w f) as [fnt|] eqn:E; [|contradiction].
    unfold bind at 1. rewrite IH by assumption. reflexivity.
Qed.

Lemma index_nil {A} (i : Z) : index (@nil A) i = None.
Proof.
  unfold index. destruct (i <? 0)%Z; [reflexivity|].
  destruct (Z.to_nat i); reflexivity.
Qed.

Lemma pickFont_nil w : exists w', pickFont [] w = Ok None w'.
Proof.
  unfold pickFont, randomInt, bind, Math_random, ret.
  rewrite index_nil. eauto.
Qed.

(** Without a loaded font, a layout of a non-empty text throws a
    [TypeError]. *)
Lemma layout_without_font o (straightMode : bool) text y w :
  text <> "" ->
  exists msg,
    (if straightMode then straight o [] text y
     else messyLayout o [] text y) w
    = Throw (JsTypeError msg).
Proof.
  intros Hne. destruct text as [|c t]; [contradiction|].
  exists "Cannot read properties of undefined". destruct straightMode.
  - reflexivity.
  - destruct (pickFont_nil w) as (w1 & Hpick).
    unfold messyLayout. cbv zeta.
    cbn [list_ascii_of_string mapM]. unfold bind. rewrite Hpick.
    reflexivity.
Qed.

(** A list with a file that does not load splits at the first such file. *)
Lemma first_failure w : forall files,
  Exists (fun f => fontStore w f = None) files ->
  exists ok file rest,
    files = (ok ++ file :: rest)%list /\
    Forall (fun f => fontStore w f <> None) ok /\
    fontStore w file = None.
Proof.
  induction files as [|f files IH]; intros Hex.
  - inversion Hex.
  - destruct (fontStore w f) as [fnt|] eqn:E.
    + inversion Hex as [f' l' Hf | f' l' Hrest]; subst; [congruence|].
      destruct (IH Hrest) as (ok & file & rest & -> & Hok & Hfile).
      exists (f :: ok), file, rest.
      split; [reflexivity|]. split; [|exact Hfile].
      constructor; [congruence | exact Hok].
    + exists [], f, files. split; [reflexivity|]. split; [constructor | exact E].
Qed.

(** X12. When one of the configured font files does not load, [generate]
    fails with the load error of a configured file that does not load
    (with several such files the source reports the one whose load fails
    first in time; the model reports the first in the list, and the
    statement fixes neither). With no font file configured at all
    ([fontFiles: []]), a non-empty pool and [size >= 1], it fails with a
    [TypeError], the layout reading a glyph from an undefined font. *)
Theorem generate_font_errors this w :
  (Exists (fun f => fontStore w f = None) (fontFiles (options this)) ->
   exists bad,
     In bad (fontFiles (options this)) /\
     fontStore w bad = None /\
     generate this w = Throw (LoadFailure bad)) /\
  (fair w ->
   fontFiles (options this) = [] ->
   chars this <> [] -> (1 <= size (options this))%nat ->
   exists msg, generate this w = Throw (JsTypeError msg)).
Proof.
  split.
  - intros Hex.
    destruct (first_failure w _ Hex)
      as (ok & file & rest & Hfiles & Hok & Hfile).
    exists file. split; [rewrite Hfiles; apply in_elt|].
    split; [exact Hfile|].
    destruct (runs_replicateM (pickChar this) (fun _ => True)
                (size (options this)) w)
      as (picks & w1 & Hpicks & (_ & _ & Hstore) & _).
    { intros w' _. apply pickChar_total. }
    unfold generate. cbv zeta. unfold bind at 1. rewrite Hpicks.
    unfold bind at 1. rewrite Hfiles, loadFonts_fails;
      [reflexivity | rewrite Hstore; exact Hok | rewrite Hstore; exact Hfile].
  - intros Hfair Hfiles Hne Hsize.
    destruct (runs_replicateM (pickChar this) (picked this)
                (size (options this)) w)
      as (picks & w1 & Hpicks & _ & Hlen & Hall).
    { intros w' He. apply pickChar_runs. eapply fair_sameEnv; eassumption. }
    assert (Htext : join picks <> "").
    { assert (Hall' : Forall (fun c => exists ch, c = Some ch
                                                  /\ In ch (chars this)) picks).
      { eapply Forall_impl; [|exact Hall]. intros p [_ Hp]. exact (Hp Hne). }
      apply join_picked in Hall' as [Hl _].
      eapply (nonempty_of_length _ (size (options this))); [|lia].
      rewrite Hl, Hlen. lia. }
    destruct (layout_without_font (options this)
                (negb (messy (options this))) (join picks)
                (height (options this) / 2 + fontSize (options this) / 3)%Q
                w1 Htext) as (msg & Hlay).
    exists msg.
    unfold generate. cbv zeta. unfold bind at 1. rewrite Hpicks.
    unfold bind at 1. rewrite Hfiles. cbn [mapM]. unfold ret at 1.
    unfold bind at 1. rewrite Hlay. reflexivity.
Qed.

(** [generate_font_errors] at work on the concrete inputs: the one
    configured file is missing from an empty disk. *)
Lemma generate_font_errors_witness :
  (exists bad, In bad [bundledFont] /\
               generate servedInstance emptyDisk = Throw (LoadFailure bad)) /\
  exists msg, generate fontlessInstance demoWorld = Throw (JsTypeError msg).
Proof.
  split.
  - destruct (proj1 (generate_font_errors servedInstance emptyDisk))
      as (bad & Hin & _ & Hgen).
    + apply Exists_cons_hd. reflexivity.
    + exists bad. split; [exact Hin | exact Hgen].
  - apply (proj2 (generate_font_errors fontlessInstance demoWorld)).
    + apply demoWorld_fair.
    + reflexivity.
    + vm_compute. discriminate.
    + cbn. lia.
Defined.

(* ------------------------------------------------------------------ *)
(** ** Storing and verifying a generated challenge *)

(** X13. After a [generate] with [size >= 1] on a non-empty pool,
    [storeCaptcha] into the store of the demonstration script succeeds,
    and verifying against that store under the returned key answers [true]
    for the returned text and [false] for every other input; under a key
    that the store does not hold, the result is [null]. *)
Theorem store_then_verify this w ttl m :
  chars this <> [] -> (1 <= size (options this))%nat ->
  fair w -> fontsLoad this w -> fontFiles (options this) <> [] ->
  runs (generate this) w
       (fun r =>
          exists m',
            storeCaptcha (snd r) ttl (Function memorySet) m = Returned m' /\
            verifyCaptcha (snd r) (text (fst r)) (key (fst r))
                          (Function (memoryGet m'))
            = Returned (VBool true) /\
            (forall userInput,
                userInput <> text (fst r) ->
                verifyCaptcha (snd r) userInput (key (fst r))
                              (Function (memoryGet m'))
                = Returned (VBool false)) /\
            (forall k userInput,
                memoryLookup m' ("captcha:" ++ k) = None ->
                verifyCaptcha (snd r) userInput k (Function (memoryGet m'))
                = Returned VNull)).
Proof.
  intros Hne Hsize Hfair Hload Hfont.
  eapply runs_weaken; [apply generate_runs; auto|].
  intros [c this'] ((picks & Hlen & Hpicks & Htext) & Hkey & _ & Hthis).
  cbn [fst snd] in *. subst this'.
  assert (Hk : key c <> "")
    by (eapply nonempty_of_length; [exact Hkey | lia]).
  assert (Ht : text c <> "").
  { assert (Hall : Forall (fun c => exists ch, c = Some ch
                                               /\ In ch (chars this)) picks).
    { eapply Forall_impl; [|exact Hpicks]. intros p [_ Hp]. exact (Hp Hne). }
    apply join_picked in Hall as [Hl _].
    eapply (nonempty_of_length _ (size (options this))); [|lia].
    rewrite Htext, Hl, Hlen. lia. }
  exists (("captcha:" ++ key c, text c) :: m).
  assert (Hfetch : memoryGet (("captcha:" ++ key c, text c) :: m)
                             ("captcha:" ++ key c)
                   = Fulfilled (VString (text c))).
  { unfold memoryGet. cbn [memoryLookup]. rewrite String.eqb_refl.
    unfold jsOr. cbn [truthy].
    apply String.eqb_neq in Ht. rewrite Ht. reflexivity. }
  split; [|split; [|split]].
  - rewrite (storeCaptcha_calls _ ttl memorySet m (key c) (text c));
      try reflexivity; assumption.
  - rewrite (verifyCaptcha_fetched _ _ _ _ (text c) Hfetch Ht).
    rewrite String.eqb_refl. reflexivity.
  - intros userInput Hwrong.
    rewrite (verifyCaptcha_fetched _ _ _ _ (text c) Hfetch Ht).
    assert (Hneq : (text c =? userInput) = false)
      by (apply String.eqb_neq; congruence).
    rewrite Hneq. reflexivity.
  - intros k userInput Hmiss. unfold verifyCaptcha, memoryGet.
    rewrite Hmiss. reflexivity.
Qed.

(** [store_then_verify] at work on the concrete inputs. *)
Lemma store_then_verify_witness :
  runs (generate servedInstance) demoWorld
       (fun r =>
          exists m',
            storeCaptcha (snd r) 60 (Function memorySet) [] = Returned m' /\
            verifyCaptcha (snd r) (text (fst r)) (key (fst r))
                          (Function (memoryGet m'))
            = Returned (VBool true)).
Proof.
  eapply runs_weaken.
  - apply (store_then_verify servedInstance demoWorld 60%Q []).
    + vm_compute. discriminate.
    + cbn. lia.
    + apply demoWorld_fair.
    + constructor; [discriminate | constructor].
    + discriminate.
  - intros r (m' & Hstore & Hright & _).
    exists m'. split; [exact Hstore | exact Hright].
Defined.
